(** * distBVH: the collision-object orchestration pipeline

    A shallow embedding of [src/bvh/collision_object.cpp] and the properties
    of its split/patch construction, its lazily created distributed stores,
    its message handlers and the order in which it schedules the steps of
    the broadphase and narrowphase protocols.

    Conventions of the embedding.
    - Quantities that count patches, nodes, view extents and local indices
      ([std::size_t] or [int] in the source) are [nat]: the source never
      computes with them near the width of their type.  The entries of the
      split views are arbitrary [std::size_t] values and are [Z], with the
      wrap-around of [send - sbeg] written out.
    - The vt runtime (collections, object groups, chain sets) is a library
      outside the repository.  It is represented by the data it is handed:
      a chain set records, in order, every step scheduled on it together
      with the pending send computed for each of its indices.
    - [always_assert] stops the process; an operation that can reach one
      returns an [outcome] that carries the diagnostic and the state in
      which the process stopped.
    - A collision object is addressed by its identity in a [world], so
      that [broadphase] and [narrowphase] act on [*this] and [_other]
      also when both are the same object.
    - The constructor of [impl], [prepare_local_patch_for_sending] and the
      routines of [collision_object_impl] that the steps call live in
      headers outside this file: the first two are section variables,
      the calls are recorded as pending sends. *)

From Stdlib Require Import ZArith.
From Stdlib.Strings Require Import Byte.
From stdpp Require Import base tactics option list strings functions pretty.

Local Open Scope string_scope.
Local Open Scope list_scope.

(** ** The vt runtime as seen by the collision object *)

Module vt.

(** A collection proxy; [no_vrt_proxy] is the value of a default
    constructed proxy. *)
Inductive vrt_proxy : Type :=
| no_vrt_proxy
| proxy_id (n : nat).

#[global] Instance vrt_proxy_eq_dec : EqDecision vrt_proxy.
Proof. solve_decision. Defined.

(** What [makeCollection] was asked for: [bounds(n).bulkInsert()] or
    [dynamicMembership(true)]. *)
Inductive collection_shape : Type :=
| bounds (size : nat)
| dynamic_membership.

#[global] Instance collection_shape_eq_dec : EqDecision collection_shape.
Proof. solve_decision. Defined.

(** The element type a collection was made for. *)
Inductive collection_kind : Type :=
| broadphase_patch_collection
| narrowphase_patch_collection
| narrowphase_collection.

#[global] Instance collection_kind_eq_dec : EqDecision collection_kind.
Proof. solve_decision. Defined.

Record collection : Type := {
  coll_proxy : vrt_proxy;
  coll_kind : collection_kind;
  coll_shape : collection_shape
}.

(** The per-process runtime: the collections and object groups made so
    far, in creation order.  Proxies are handed out consecutively. *)
Record runtime : Type := {
  collections : list collection;
  objgroups : list string
}.

Definition empty_runtime : runtime :=
  {| collections := []; objgroups := [] |}.

(** [theContext()]: this node and the number of nodes. *)
Record context : Type := {
  getNode : nat;
  getNumNodes : nat
}.

(** [makeCollection<T>()...wait()]: registers the collection and returns
    its proxy, which is never [no_vrt_proxy]. *)
Definition makeCollection (k : collection_kind) (s : collection_shape)
    (rt : runtime) : vrt_proxy * runtime :=
  let p := proxy_id (length (collections rt)) in
  (p, {| collections := collections rt ++
                        [ {| coll_proxy := p; coll_kind := k; coll_shape := s |} ];
         objgroups := objgroups rt |}).

(** [theObjGroup()->makeCollective<T>(label)]: the proxy is the position
    of the group in creation order. *)
Definition makeCollective (label : string) (rt : runtime) : nat * runtime :=
  (length (objgroups rt),
   {| collections := collections rt; objgroups := objgroups rt ++ [label] |}).

End vt.

Export vt.

(** ** Patches and messages *)

(** [span< const entity_snapshot >( snapshots.data() + sbeg, nelements )]:
    the offset of the first snapshot in the snapshot buffer and the number
    of snapshots. *)
Record span : Type := {
  span_begin : Z;
  span_size : Z
}.

(** A patch is either default constructed (the elements that
    [local_patches.resize] adds) or built by
    [broadphase_patch_type( id, span )]; it keeps what it was built from. *)
Inductive patch : Type :=
| empty_patch
| broadphase_patch_type (id : nat) (snapshots : span).

Definition global_id (p : patch) : option nat :=
  match p with
  | empty_patch => None
  | broadphase_patch_type id _ => Some id
  end.

Definition patch_span (p : patch) : option span :=
  match p with
  | empty_patch => None
  | broadphase_patch_type _ s => Some s
  end.

#[global] Instance span_eq_dec : EqDecision span.
Proof. solve_decision. Defined.

#[global] Instance patch_eq_dec : EqDecision patch.
Proof. solve_decision. Defined.

#[global] Instance byte_eq_dec : EqDecision byte := Byte.byte_eq_dec.

(** The messages and the collection elements are declared in
    [collision_object/types.hpp]; they have the members that this file
    reads or writes. *)
Record broadphase_patch_msg : Type := {
  bmsg_patch : patch;
  bmsg_origin_node : nat;
  bmsg_local_idx : nat
}.

(** The payload [user_data()] follows the message; [data_size] is the
    number of payload bytes the sender declared. *)
Record narrowphase_patch_msg : Type := {
  patch_meta : patch;
  data_size : nat;
  user_data : list byte;
  origin_node : nat
}.

#[global] Instance broadphase_patch_msg_eq_dec : EqDecision broadphase_patch_msg.
Proof. solve_decision. Defined.

#[global] Instance narrowphase_patch_msg_eq_dec : EqDecision narrowphase_patch_msg.
Proof. solve_decision. Defined.

(** An element of the broadphase patch collection. *)
Record broadphase_patch_collection_type : Type := {
  bcoll_patch : patch;
  bcoll_origin_node : nat;
  bcoll_local_idx : nat
}.

(** An element of the narrowphase patch collection. *)
Record narrowphase_patch_collection_type : Type := {
  ncoll_patch_meta : patch;
  ncoll_bytes : list byte;
  ncoll_origin_node : nat;
  ghost_destinations : list nat
}.

Module details.

Definition set_broadphase_patches (_coll : broadphase_patch_collection_type)
    (_msg : broadphase_patch_msg) : broadphase_patch_collection_type :=
  {| bcoll_patch := bmsg_patch _msg;
     bcoll_origin_node := bmsg_origin_node _msg;
     bcoll_local_idx := bmsg_local_idx _msg |}.

(** [std::memcpy( dst, src, n )] on buffers that hold at least [n]
    bytes each. *)
Definition memcpy (dst src : list byte) (n : nat) : list byte :=
  take n src ++ drop n dst.

Definition set_narrowphase_patches (_coll : narrowphase_patch_collection_type)
    (_msg : narrowphase_patch_msg) : narrowphase_patch_collection_type :=
  (* Set data *)
  let bytes := resize (data_size _msg) Byte.x00 (ncoll_bytes _coll) in
  let bytes := memcpy bytes (user_data _msg) (data_size _msg) in
  {| ncoll_patch_meta := patch_meta _msg;
     ncoll_bytes := bytes;
     ncoll_origin_node := origin_node _msg;
     (* Reset cache destinations *)
     ghost_destinations := [] |}.

End details.

(** ** Chain sets: [vt::messaging::CollectionChainSet]

    A step action is called once per index when the step is scheduled and
    returns the pending send that the chain of that index will release.
    The pending sends of this file are the sends to the three handlers
    above and the calls into [collision_object_impl]. *)

Module messaging.

(** The handlers of [collision_object_holder] that receive a message
    through the object group. *)
Inductive holder_handler : Type :=
| begin_narrowphase_modification
| finish_narrowphase_modification
| setup_narrowphase.

Inductive pending_send : Type :=
| null_send
    (* pending_send{ nullptr } *)
| send_broadphase_patch (store : vrt_proxy) (target : nat) (msg : broadphase_patch_msg)
    (* store[target].sendMsg< broadphase_patch_msg, &details::set_broadphase_patches > *)
| send_narrowphase_patch (store : vrt_proxy) (target : nat) (msg : narrowphase_patch_msg)
    (* store[target].sendMsg< narrowphase_patch_msg, &details::set_narrowphase_patches > *)
| send_holder (objgroup : nat) (node : nat) (h : holder_handler)
    (* objgroup[node].sendMsg< ..., &collision_object_holder::h > *)
| call_build_trees_top_down (idx : nat) (objgroup : nat) (store : vrt_proxy)
| call_broadphase (idx local_idx rank : nat) (store : vrt_proxy)
    (objgroup other_objgroup : nat)
| call_activate_narrowphase (idx objgroup : nat)
| call_request_ghosts (idx objgroup other_objgroup : nat)
| call_ghost (idx objgroup : nat) (store : vrt_proxy)
| call_narrowphase (idx objgroup : nat)
| call_clear_narrowphase (idx objgroup : nat).

#[global] Instance holder_handler_eq_dec : EqDecision holder_handler.
Proof. solve_decision. Defined.

#[global] Instance pending_send_eq_dec : EqDecision pending_send.
Proof. solve_decision. Defined.

(** How a step was scheduled. *)
Inductive step_kind : Type :=
| per_index        (* nextStep *)
| collective       (* nextStepCollective *)
| merge.           (* mergeStepCollective *)

#[global] Instance step_kind_eq_dec : EqDecision step_kind.
Proof. solve_decision. Defined.

Record step : Type := {
  step_label : string;
  kind : step_kind;
  sends : list (nat * pending_send)
}.

#[global] Instance step_eq_dec : EqDecision step.
Proof. solve_decision. Defined.

(** The indices registered with [addIndex], the steps scheduled since
    the last [phaseDone] in scheduling order, and the phases already
    closed. *)
Record CollectionChainSet : Type := {
  indices : list nat;
  steps : list step;
  phases : list (list step)
}.

Definition empty_chainset : CollectionChainSet :=
  {| indices := []; steps := []; phases := [] |}.

Definition addIndex (idx : nat) (cs : CollectionChainSet) : CollectionChainSet :=
  {| indices := indices cs ++ [idx]; steps := steps cs; phases := phases cs |}.

Definition add_step (st : step) (cs : CollectionChainSet) : CollectionChainSet :=
  {| indices := indices cs; steps := steps cs ++ [st]; phases := phases cs |}.

(** The step action applied to every index of the chain set. *)
Definition run_action (step_action : nat -> pending_send) (cs : CollectionChainSet)
    : list (nat * pending_send) :=
  map (fun idx => (idx, step_action idx)) (indices cs).

Definition nextStep (label : string) (step_action : nat -> pending_send)
    (cs : CollectionChainSet) : CollectionChainSet :=
  add_step {| step_label := label; kind := per_index;
              sends := run_action step_action cs |} cs.

Definition nextStepCollective (label : string) (step_action : nat -> pending_send)
    (cs : CollectionChainSet) : CollectionChainSet :=
  add_step {| step_label := label; kind := collective;
              sends := run_action step_action cs |} cs.

(** The step that [mergeStepCollective( label, a, b, action )] links into
    both chain sets: the action runs over the indices of [a]. *)
Definition merged_step (label : string) (step_action : nat -> pending_send)
    (a : CollectionChainSet) : step :=
  {| step_label := label; kind := merge; sends := run_action step_action a |}.

Definition phaseDone (cs : CollectionChainSet) : CollectionChainSet :=
  {| indices := indices cs; steps := []; phases := phases cs ++ [steps cs] |}.

End messaging.

Export messaging.

(** ** Stopping the process *)

Inductive stop_reason : Type :=
| assertion_failed (format : string) (args : list nat)
    (* always_assert( false, format, args... ) *)
| out_of_range.
    (* the exception of std::vector::at *)

Inductive outcome (S : Type) : Type :=
| Done (s : S)
| Stopped (why : stop_reason) (s : S).

Arguments Done {S} s.
Arguments Stopped {S} why s.

Definition state_of {S : Type} (r : outcome S) : S :=
  match r with
  | Done s => s
  | Stopped _ s => s
  end.

Definition is_done {S : Type} (r : outcome S) : bool :=
  match r with
  | Done _ => true
  | Stopped _ _ => false
  end.

Definition and_then {S : Type} (r : outcome S) (k : S -> outcome S) : outcome S :=
  match r with
  | Done s => k s
  | Stopped why s => Stopped why s
  end.

Notation "r >>> k" := (and_then r k) (at level 61, left associativity).

(** [always_assert( cond, format, args... ); rest] *)
Definition always_assert {S : Type} (cond : bool) (format : string) (args : list nat)
    (s : S) (rest : S -> outcome S) : outcome S :=
  if cond then rest s else Stopped (assertion_failed format args) s.

(** [std::size_t] arithmetic. *)
Definition wrap64 (z : Z) : Z := (z mod 2 ^ 64)%Z.

(** [static_cast< int >( n )] of a [std::size_t]: the low 32 bits, read
    in two's complement. *)
Definition static_cast_int (n : nat) : Z :=
  let m := (Z.of_nat n mod 2 ^ 32)%Z in
  if (m <? 2 ^ 31)%Z then m else (m - 2 ^ 32)%Z.

(** ** The collision object *)

(** A Kokkos device view, of which this file only sets and reads the
    extent.  Host views are lists. *)
Record device_view : Type := {
  extent : nat
}.

#[global] Instance patch_inhabited : Inhabited patch := populate empty_patch.

(** [element_permutations]: the partition plan handed over by the
    splitting strategy. *)
Record element_permutations : Type := {
  perm_indices : list Z;
  perm_splits : list Z
}.

Module collision_object.

Section collision_object.

(** The result of an exact test and the entries of the patch cache are
    opaque to this file, which only clears their containers. *)
Context {narrowphase_result patch_cache_entry : Type}.

(** [collision_object::impl], declared in [collision_object/impl.hpp]:
    the members that this file reads or writes, typed by their use
    here. *)

Record impl : Type := {
  collision_idx : nat;
  overdecomposition : nat;
  build_trees : bool;
  chainset : CollectionChainSet;
  objgroup : nat;
  splits : device_view;  (* device view: only its extent is read *)
  split_indices : device_view;  (* device view: only its extent is set *)
  splits_h : list Z;
  split_indices_h : list Z;
  num_splits : nat;
  local_patches : list patch;
  narrowphase_patch_messages : list (option narrowphase_patch_msg);  (* [None] is nullptr *)
  m_entity_ptr : Z;
  m_entity_unit_size : nat;
  local_results : list narrowphase_result;
  active_narrowphase_indices : list nat;
  active_narrowphase_local_index : list nat;
  narrowphase_patch_cache : list patch_cache_entry;
  broadphase_patch_collection_proxy : vrt_proxy;
  narrowphase_patch_collection_proxy : vrt_proxy;
  narrowphase_collection_proxy : vrt_proxy
}.

(** Assignments to the fields of [*m_impl]. *)

Definition set_overdecomposition (overdecomposition' : nat) (o : impl) : impl :=
  {| collision_idx := collision_idx o; overdecomposition := overdecomposition';
     build_trees := build_trees o; chainset := chainset o; objgroup := objgroup o;
     splits := splits o; split_indices := split_indices o; splits_h := splits_h o;
     split_indices_h := split_indices_h o; num_splits := num_splits o;
     local_patches := local_patches o;
     narrowphase_patch_messages := narrowphase_patch_messages o;
     m_entity_ptr := m_entity_ptr o; m_entity_unit_size := m_entity_unit_size o;
     local_results := local_results o;
     active_narrowphase_indices := active_narrowphase_indices o;
     active_narrowphase_local_index := active_narrowphase_local_index o;
     narrowphase_patch_cache := narrowphase_patch_cache o;
     broadphase_patch_collection_proxy := broadphase_patch_collection_proxy o;
     narrowphase_patch_collection_proxy := narrowphase_patch_collection_proxy o;
     narrowphase_collection_proxy := narrowphase_collection_proxy o |}.

Definition set_chainset (chainset' : CollectionChainSet) (o : impl) : impl :=
  {| collision_idx := collision_idx o; overdecomposition := overdecomposition o;
     build_trees := build_trees o; chainset := chainset'; objgroup := objgroup o;
     splits := splits o; split_indices := split_indices o; splits_h := splits_h o;
     split_indices_h := split_indices_h o; num_splits := num_splits o;
     local_patches := local_patches o;
     narrowphase_patch_messages := narrowphase_patch_messages o;
     m_entity_ptr := m_entity_ptr o; m_entity_unit_size := m_entity_unit_size o;
     local_results := local_results o;
     active_narrowphase_indices := active_narrowphase_indices o;
     active_narrowphase_local_index := active_narrowphase_local_index o;
     narrowphase_patch_cache := narrowphase_patch_cache o;
     broadphase_patch_collection_proxy := broadphase_patch_collection_proxy o;
     narrowphase_patch_collection_proxy := narrowphase_patch_collection_proxy o;
     narrowphase_collection_proxy := narrowphase_collection_proxy o |}.

Definition set_objgroup (objgroup' : nat) (o : impl) : impl :=
  {| collision_idx := collision_idx o; overdecomposition := overdecomposition o;
     build_trees := build_trees o; chainset := chainset o; objgroup := objgroup';
     splits := splits o; split_indices := split_indices o; splits_h := splits_h o;
     split_indices_h := split_indices_h o; num_splits := num_splits o;
     local_patches := local_patches o;
     narrowphase_patch_messages := narrowphase_patch_messages o;
     m_entity_ptr := m_entity_ptr o; m_entity_unit_size := m_entity_unit_size o;
     local_results := local_results o;
     active_narrowphase_indices := active_narrowphase_indices o;
     active_narrowphase_local_index := active_narrowphase_local_index o;
     narrowphase_patch_cache := narrowphase_patch_cache o;
     broadphase_patch_collection_proxy := broadphase_patch_collection_proxy o;
     narrowphase_patch_collection_proxy := narrowphase_patch_collection_proxy o;
     narrowphase_collection_proxy := narrowphase_collection_proxy o |}.

Definition set_split_views (splits' : device_view) (split_indices' : device_view) (splits_h' : list Z) (split_indices_h' : list Z) (o : impl) : impl :=
  {| collision_idx := collision_idx o; overdecomposition := overdecomposition o;
     build_trees := build_trees o; chainset := chainset o; objgroup := objgroup o;
     splits := splits'; split_indices := split_indices'; splits_h := splits_h';
     split_indices_h := split_indices_h'; num_splits := num_splits o;
     local_patches := local_patches o;
     narrowphase_patch_messages := narrowphase_patch_messages o;
     m_entity_ptr := m_entity_ptr o; m_entity_unit_size := m_entity_unit_size o;
     local_results := local_results o;
     active_narrowphase_indices := active_narrowphase_indices o;
     active_narrowphase_local_index := active_narrowphase_local_index o;
     narrowphase_patch_cache := narrowphase_patch_cache o;
     broadphase_patch_collection_proxy := broadphase_patch_collection_proxy o;
     narrowphase_patch_collection_proxy := narrowphase_patch_collection_proxy o;
     narrowphase_collection_proxy := narrowphase_collection_proxy o |}.

Definition set_num_splits (num_splits' : nat) (o : impl) : impl :=
  {| collision_idx := collision_idx o; overdecomposition := overdecomposition o;
     build_trees := build_trees o; chainset := chainset o; objgroup := objgroup o;
     splits := splits o; split_indices := split_indices o; splits_h := splits_h o;
     split_indices_h := split_indices_h o; num_splits := num_splits';
     local_patches := local_patches o;
     narrowphase_patch_messages := narrowphase_patch_messages o;
     m_entity_ptr := m_entity_ptr o; m_entity_unit_size := m_entity_unit_size o;
     local_results := local_results o;
     active_narrowphase_indices := active_narrowphase_indices o;
     active_narrowphase_local_index := active_narrowphase_local_index o;
     narrowphase_patch_cache := narrowphase_patch_cache o;
     broadphase_patch_collection_proxy := broadphase_patch_collection_proxy o;
     narrowphase_patch_collection_proxy := narrowphase_patch_collection_proxy o;
     narrowphase_collection_proxy := narrowphase_collection_proxy o |}.

Definition set_local_patches (local_patches' : list patch) (o : impl) : impl :=
  {| collision_idx := collision_idx o; overdecomposition := overdecomposition o;
     build_trees := build_trees o; chainset := chainset o; objgroup := objgroup o;
     splits := splits o; split_indices := split_indices o; splits_h := splits_h o;
     split_indices_h := split_indices_h o; num_splits := num_splits o;
     local_patches := local_patches';
     narrowphase_patch_messages := narrowphase_patch_messages o;
     m_entity_ptr := m_entity_ptr o; m_entity_unit_size := m_entity_unit_size o;
     local_results := local_results o;
     active_narrowphase_indices := active_narrowphase_indices o;
     active_narrowphase_local_index := active_narrowphase_local_index o;
     narrowphase_patch_cache := narrowphase_patch_cache o;
     broadphase_patch_collection_proxy := broadphase_patch_collection_proxy o;
     narrowphase_patch_collection_proxy := narrowphase_patch_collection_proxy o;
     narrowphase_collection_proxy := narrowphase_collection_proxy o |}.

Definition set_narrowphase_patch_messages (narrowphase_patch_messages' : list (option narrowphase_patch_msg)) (o : impl) : impl :=
  {| collision_idx := collision_idx o; overdecomposition := overdecomposition o;
     build_trees := build_trees o; chainset := chainset o; objgroup := objgroup o;
     splits := splits o; split_indices := split_indices o; splits_h := splits_h o;
     split_indices_h := split_indices_h o; num_splits := num_splits o;
     local_patches := local_patches o;
     narrowphase_patch_messages := narrowphase_patch_messages';
     m_entity_ptr := m_entity_ptr o; m_entity_unit_size := m_entity_unit_size o;
     local_results := local_results o;
     active_narrowphase_indices := active_narrowphase_indices o;
     active_narrowphase_local_index := active_narrowphase_local_index o;
     narrowphase_patch_cache := narrowphase_patch_cache o;
     broadphase_patch_collection_proxy := broadphase_patch_collection_proxy o;
     narrowphase_patch_collection_proxy := narrowphase_patch_collection_proxy o;
     narrowphase_collection_proxy := narrowphase_collection_proxy o |}.

Definition set_entity_buffer (m_entity_ptr' : Z) (m_entity_unit_size' : nat) (o : impl) : impl :=
  {| collision_idx := collision_idx o; overdecomposition := overdecomposition o;
     build_trees := build_trees o; chainset := chainset o; objgroup := objgroup o;
     splits := splits o; split_indices := split_indices o; splits_h := splits_h o;
     split_indices_h := split_indices_h o; num_splits := num_splits o;
     local_patches := local_patches o;
     narrowphase_patch_messages := narrowphase_patch_messages o;
     m_entity_ptr := m_entity_ptr'; m_entity_unit_size := m_entity_unit_size';
     local_results := local_results o;
     active_narrowphase_indices := active_narrowphase_indices o;
     active_narrowphase_local_index := active_narrowphase_local_index o;
     narrowphase_patch_cache := narrowphase_patch_cache o;
     broadphase_patch_collection_proxy := broadphase_patch_collection_proxy o;
     narrowphase_patch_collection_proxy := narrowphase_patch_collection_proxy o;
     narrowphase_collection_proxy := narrowphase_collection_proxy o |}.

Definition set_round_containers (local_results' : list narrowphase_result) (active_narrowphase_indices' : list nat) (active_narrowphase_local_index' : list nat) (narrowphase_patch_cache' : list patch_cache_entry) (o : impl) : impl :=
  {| collision_idx := collision_idx o; overdecomposition := overdecomposition o;
     build_trees := build_trees o; chainset := chainset o; objgroup := objgroup o;
     splits := splits o; split_indices := split_indices o; splits_h := splits_h o;
     split_indices_h := split_indices_h o; num_splits := num_splits o;
     local_patches := local_patches o;
     narrowphase_patch_messages := narrowphase_patch_messages o;
     m_entity_ptr := m_entity_ptr o; m_entity_unit_size := m_entity_unit_size o;
     local_results := local_results';
     active_narrowphase_indices := active_narrowphase_indices';
     active_narrowphase_local_index := active_narrowphase_local_index';
     narrowphase_patch_cache := narrowphase_patch_cache';
     broadphase_patch_collection_proxy := broadphase_patch_collection_proxy o;
     narrowphase_patch_collection_proxy := narrowphase_patch_collection_proxy o;
     narrowphase_collection_proxy := narrowphase_collection_proxy o |}.

Definition set_collection_proxies (broadphase_patch_collection_proxy' : vrt_proxy) (narrowphase_patch_collection_proxy' : vrt_proxy) (narrowphase_collection_proxy' : vrt_proxy) (o : impl) : impl :=
  {| collision_idx := collision_idx o; overdecomposition := overdecomposition o;
     build_trees := build_trees o; chainset := chainset o; objgroup := objgroup o;
     splits := splits o; split_indices := split_indices o; splits_h := splits_h o;
     split_indices_h := split_indices_h o; num_splits := num_splits o;
     local_patches := local_patches o;
     narrowphase_patch_messages := narrowphase_patch_messages o;
     m_entity_ptr := m_entity_ptr o; m_entity_unit_size := m_entity_unit_size o;
     local_results := local_results o;
     active_narrowphase_indices := active_narrowphase_indices o;
     active_narrowphase_local_index := active_narrowphase_local_index o;
     narrowphase_patch_cache := narrowphase_patch_cache o;
     broadphase_patch_collection_proxy := broadphase_patch_collection_proxy';
     narrowphase_patch_collection_proxy := narrowphase_patch_collection_proxy';
     narrowphase_collection_proxy := narrowphase_collection_proxy' |}.

(** The identity of a collision object: the reference [*this] or
    [_other]. *)
Definition object_ref : Type := nat.

(** The collision objects of the process, by identity, and the vt
    runtime they share. *)
Record world : Type := {
  objects : object_ref -> impl;
  rt : runtime
}.

Definition with_object (ref : object_ref) (f : impl -> impl) (w : world) : world :=
  {| objects := <[ref := f (objects w ref)]> (objects w); rt := rt w |}.

Definition on_chainset (f : CollectionChainSet -> CollectionChainSet) (o : impl) : impl :=
  set_chainset (f (chainset o)) o.

(** [chainset_type::mergeStepCollective( label, a.chainset, b.chainset, action )]:
    one step, linked into the chains of both objects. *)
Definition mergeStepCollective (label : string) (a b : object_ref)
    (step_action : nat -> pending_send) (w : world) : world :=
  let st := merged_step label step_action (chainset (objects w a)) in
  let w := with_object a (on_chainset (add_step st)) w in
  if decide (a = b) then w else with_object b (on_chainset (add_step st)) w.

(** Parts of the object that live in headers outside this file: the
    constructor of [impl] and the method that packs the raw payload of a
    local patch into a message. *)
Context {collision_world : Type}.
Variable make_impl : collision_world -> nat -> impl.
Variable prepare_local_patch_for_sending : impl -> nat -> nat -> narrowphase_patch_msg.

(** [collision_object::collision_object( _world, _idx, _overdecomposition )]
    (the registration of trace events is left out).  The factor is kept
    as [static_cast< int >( _overdecomposition )].  When that is negative
    the loop, which compares it with a [std::size_t], asks for
    [2^64 + factor] indices: the constructor does not return, and there
    is no object. *)
Definition construct (_world : collision_world) (_idx _overdecomposition : nat)
    (r : runtime) : option (impl * runtime) :=
  let o := make_impl _world _idx in
  let od := static_cast_int _overdecomposition in
  if (od <? 0)%Z then None
  else
    let o := set_overdecomposition (Z.to_nat od) o in
    let o := foldl (fun o i => on_chainset (addIndex i) o) o
               (seq 0 (overdecomposition o)) in
    (* Initialize objgroup for per-node data *)
    let '(og, r) := makeCollective ("collision_object " +:+ pretty _idx) r in
    Some (set_objgroup og o, r).

(** [collision_object::initialize_split_indices]: the four views are
    resized and the host views then receive a deep copy of the plan. *)
Definition initialize_split_indices (_splits : element_permutations) (o : impl) : impl :=
  set_split_views
    {| extent := length (perm_splits _splits) |}
    {| extent := length (perm_indices _splits) |}
    (perm_splits _splits)
    (perm_indices _splits)
    o.

(** The patch that iteration [i] of the loop of [set_entity_data_impl]
    assigns to [local_patches[i]].  A host view read outside its extent
    is undefined in the source and reads 0 here; it does not happen when
    [splits_h] has the extent of [splits], as [initialize_split_indices]
    leaves them. *)
Definition entity_patch (rank : nat) (o : impl) (i : nat) : patch :=
  let od_factor := overdecomposition o in
  let sbeg := if decide (i = 0) then 0%Z else splits_h o !!! (i - 1) in
  let send := if decide (i = num_splits o)
              then Z.of_nat (length (split_indices_h o))
              else splits_h o !!! i in
  let nelements := wrap64 (send - sbeg) in
  broadphase_patch_type (i + rank * od_factor)
    {| span_begin := sbeg; span_size := nelements |}.

Definition splits_mismatch_format : string :=
  "error during splitting process, splits {} do not match od factor {}\n".

(** [collision_object::set_entity_data_impl( _data, _element_size )] *)
Definition set_entity_data_impl (ctx : context) (_data : Z) (_element_size : nat)
    (o : impl) : outcome impl :=
  let rank := getNode ctx in
  let od_factor := overdecomposition o in
  let o := set_num_splits (extent (splits o)) o in
  let o := set_local_patches [] o in
  let o := set_local_patches (resize od_factor empty_patch (local_patches o)) o in
  always_assert (bool_decide (num_splits o + 1 = od_factor))
    splits_mismatch_format [num_splits o + 1; od_factor] o (fun o =>
  (* Preallocate local data buffers. Do this lazily *)
  let o := set_narrowphase_patch_messages
             (resize od_factor None (narrowphase_patch_messages o)) o in
  let o := set_entity_buffer _data _element_size o in
  let o := set_local_patches
             (foldl (fun ps i => <[i := entity_patch rank o i]> ps)
                    (local_patches o) (seq 0 od_factor)) o in
  always_assert (bool_decide (length (local_patches o) = od_factor))
    "wrong number of patches\n" [] o Done).

(** [collision_object::init_broadphase()], on the object and the runtime.
    [local_patches.at( i )] throws for an index that has no patch; the
    step is then not scheduled. *)
Definition init_broadphase (ctx : context) (or : impl * runtime)
    : outcome (impl * runtime) :=
  let '(o, r) := or in
  let o := set_round_containers [] [] [] [] o in
  let rank := getNode ctx in
  let od_factor := overdecomposition o in
  (* Now lazily construct the collection if it's necessary *)
  let coll_size := od_factor * getNumNodes ctx in
  let '(o, r) :=
    if decide (broadphase_patch_collection_proxy o = no_vrt_proxy) then
      let '(bp, r) := makeCollection broadphase_patch_collection (bounds coll_size) r in
      let '(np, r) := makeCollection narrowphase_patch_collection (bounds coll_size) r in
      let '(nc, r) := makeCollection narrowphase_collection dynamic_membership r in
      (set_collection_proxies bp np nc o, r)
    else (o, r) in
  (* Update the data; od_factor should be identical across nodes *)
  let offset := rank * od_factor in
  if forallb (fun i => bool_decide (i < length (local_patches o)))
       (indices (chainset o))
  then
    let o := on_chainset (nextStep "broadphase_patch_step" (fun _local =>
               send_broadphase_patch (broadphase_patch_collection_proxy o)
                 (_local + offset)
                 {| bmsg_patch := local_patches o !!! _local;
                    bmsg_origin_node := rank;
                    bmsg_local_idx := _local |})) o in
    (* Right now use top down algorithm *)
    let o :=
      if build_trees o then
        on_chainset (nextStepCollective "build_tree_step" (fun _idx =>
          call_build_trees_top_down (_idx + offset) (objgroup o)
            (broadphase_patch_collection_proxy o))) o
      else o in
    Done (o, r)
  else Stopped out_of_range (o, r).

(** What the step action of [set_all_narrow_patches] leaves in
    [narrowphase_patch_messages[i]]. *)
Definition stamp_message (ctx : context) (o : impl) (i : nat)
    (msg : narrowphase_patch_msg) : narrowphase_patch_msg :=
  {| patch_meta := local_patches o !!! i;
     data_size := data_size msg;      (* User data and data_size already filled in *)
     user_data := user_data msg;
     origin_node := getNode ctx |}.

Definition splits_od_format : string :=
  "\n !!! Error during splitting process -- Splits do not match od factor !!!\n\n".

(** The loop of [set_all_narrow_patches] that packs every local patch:
    [narrowphase_patch_messages[i] = prepare_local_patch_for_sending( i, rank )].
    Writing outside the vector is undefined in the source, where the
    process may fault before it reaches the assertion; here the write is
    dropped.  The model follows the source on the objects that have a
    message slot for every index below the factor, which are the objects
    on which [set_entity_data_impl] has completed. *)
Definition prepare_messages (rank : nat) (o : impl) : impl :=
  foldl (fun o i =>
           set_narrowphase_patch_messages
             (<[i := Some (prepare_local_patch_for_sending o i rank)]>
                (narrowphase_patch_messages o)) o)
        o (seq 0 (overdecomposition o)).

(** [collision_object::set_all_narrow_patches()].  The step action stamps
    the message of its index and sends it.  A null message, which the
    source would dereference, sends nothing here; there is none on an
    object that has a slot and a patch for every index. *)
Definition set_all_narrow_patches (ctx : context) (o : impl) : outcome impl :=
  let rank := getNode ctx in
  let od_factor := overdecomposition o in
  let o := prepare_messages rank o in
  always_assert (bool_decide (length (local_patches o) = od_factor))
    splits_od_format [] o (fun o =>
  let offset := rank * od_factor in
  let cs := nextStep "narrowphase_patch_step" (fun _local =>
              match narrowphase_patch_messages o !! _local with
              | Some (Some msg) =>
                  send_narrowphase_patch (narrowphase_patch_collection_proxy o)
                    (_local + offset) (stamp_message ctx o _local msg)
              | _ => null_send
              end) (chainset o) in
  let o := set_narrowphase_patch_messages
             (foldl (fun ms i => alter (fmap (stamp_message ctx o i)) i ms)
                    (narrowphase_patch_messages o) (indices (chainset o))) o in
  Done (set_chainset cs o)).

(** [collision_object::set_active_narrow_patches()] *)
Definition set_active_narrow_patches (ctx : context) (o : impl) : impl :=
  let rank := getNode ctx in
  on_chainset (nextStepCollective "set_narrowphase_patches" (fun _idx =>
    if decide (_idx = 0) then send_holder (objgroup o) rank setup_narrowphase
    else null_send)) o.

(** [collision_object::narrowphase( _other )] called on [this]. *)
Definition narrowphase (ctx : context) (this _other : object_ref) (w : world) : world :=
  let od_factor := overdecomposition (objects w this) in
  let rank := getNode ctx in
  let offset := rank * od_factor in
  (* We need to activate them *)
  let w := mergeStepCollective "activate_narrowphase_step" this _other (fun _idx =>
             if decide (_idx = 0)
             then call_activate_narrowphase _idx (objgroup (objects w this))
             else null_send) w in
  (* Proceed with narrowphase *)
  let w := with_object this (on_chainset (nextStepCollective "request_ghosts" (fun _idx =>
             if decide (_idx = 0)
             then call_request_ghosts _idx (objgroup (objects w this))
                    (objgroup (objects w _other))
             else null_send))) w in
  let w := with_object this (on_chainset (nextStepCollective "ghost_this" (fun _local_idx =>
             call_ghost (_local_idx + offset) (objgroup (objects w this))
               (narrowphase_patch_collection_proxy (objects w this))))) w in
  let w := with_object this (on_chainset (nextStepCollective "ghost_other" (fun _local_idx =>
             call_ghost (_local_idx + offset) (objgroup (objects w _other))
               (narrowphase_patch_collection_proxy (objects w _other))))) w in
  let w := mergeStepCollective "narrowphase" this _other (fun _idx =>
             if decide (_idx = 0)
             then call_narrowphase _idx (objgroup (objects w this))
             else null_send) w in
  with_object this (on_chainset (nextStepCollective "clear_narrowphase_step" (fun _idx =>
    if decide (_idx = 0)
    then call_clear_narrowphase _idx (objgroup (objects w this))
    else null_send))) w.

(** A method of one object that may stop, run on the object [ref] of the
    world. *)
Definition try_object (ref : object_ref) (f : impl -> outcome impl) (w : world)
    : outcome world :=
  match f (objects w ref) with
  | Done o => Done (with_object ref (fun _ => o) w)
  | Stopped why o => Stopped why (with_object ref (fun _ => o) w)
  end.

(** [collision_object::broadphase( _other )] called on [this].  The first
    argument says whether the file is compiled with
    [BVH_COPY_ALL_NARROWPHASE_PATCHES] defined. *)
Definition broadphase (BVH_COPY_ALL_NARROWPHASE_PATCHES : bool) (ctx : context)
    (this _other : object_ref) (w : world) : outcome world :=
  let od_factor := overdecomposition (objects w this) in
  let rank := getNode ctx in
  let offset := rank * od_factor in
  let w := with_object this (on_chainset (nextStepCollective "start broadphase insertion"
             (fun _local_idx =>
                if decide (_local_idx = 0)
                then send_holder (objgroup (objects w this)) (getNode ctx)
                       begin_narrowphase_modification
                else null_send))) w in
  let w := mergeStepCollective "broadphase_step" this _other (fun _idx =>
             call_broadphase (_idx + offset) _idx rank
               (broadphase_patch_collection_proxy (objects w this))
               (objgroup (objects w this)) (objgroup (objects w _other))) w in
  let w := with_object this (on_chainset (nextStepCollective "finalize broadphase insertion"
             (fun _local_idx =>
                if decide (_local_idx = 0)
                then send_holder (objgroup (objects w this)) (getNode ctx)
                       finish_narrowphase_modification
                else null_send))) w in
  (if BVH_COPY_ALL_NARROWPHASE_PATCHES then
     try_object this (set_all_narrow_patches ctx) w >>>
     try_object _other (set_all_narrow_patches ctx)
   else
     let w := with_object this (set_active_narrow_patches ctx) w in
     Done (with_object _other (set_active_narrow_patches ctx) w))
  >>> fun w => Done (narrowphase ctx this _other w).

(** [collision_object::end_phase()] *)
Definition end_phase (o : impl) : impl := on_chainset phaseDone o.

(** [collision_object::init_broadphase()] called on [this]. *)
Definition init_broadphase_on (ctx : context) (this : object_ref) (w : world)
    : outcome world :=
  match init_broadphase ctx (objects w this, rt w) with
  | Done (o, r) =>
      Done {| objects := <[this := o]> (objects w); rt := r |}
  | Stopped why (o, r) =>
      Stopped why {| objects := <[this := o]> (objects w); rt := r |}
  end.

(** ** Vocabulary of the properties *)

(** The boundaries of a plan, with the sentinels: 0, the splits, and
    the number of entities. *)
Definition boundaries (plan : element_permutations) : list Z :=
  0%Z :: perm_splits plan ++ [Z.of_nat (length (perm_indices plan))].

Fixpoint ordered (b : list Z) : bool :=
  match b with
  | x :: (y :: _) as rest => (x <=? y)%Z && ordered rest
  | _ => true
  end.

(** A valid plan: the boundaries are in order (so every split lies
    between 0 and the number of entities), and the number of entities is a
    [std::size_t]. *)
Definition valid_plan (plan : element_permutations) : bool :=
  ordered (boundaries plan)
  && (Z.of_nat (length (perm_indices plan)) <? 2 ^ 64)%Z.

(** The positions of the snapshot buffer that a span covers, in order. *)
Definition span_indices (s : span) : list Z :=
  seqZ (span_begin s) (span_size s).

Definition patch_indices (p : patch) : list Z :=
  match patch_span p with
  | Some s => span_indices s
  | None => []
  end.

(** The consecutive half-open intervals between boundaries. *)
Fixpoint intervals (b : list Z) : list span :=
  match b with
  | x :: (y :: _) as rest =>
      {| span_begin := x; span_size := (y - x)%Z |} :: intervals rest
  | _ => []
  end.

(** The elements of a narrowphase patch collection, by index, after the
    runtime has released a pending send: a publish message addressed to
    the collection [p] runs [details::set_narrowphase_patches] on the
    target element. *)
Definition release (p : vrt_proxy) (elems : list narrowphase_patch_collection_type)
    (s : pending_send) : list narrowphase_patch_collection_type :=
  match s with
  | send_narrowphase_patch p' target msg =>
      if decide (p' = p)
      then alter (fun c => details.set_narrowphase_patches c msg) target elems
      else elems
  | _ => elems
  end.

Definition release_all (p : vrt_proxy) (elems : list narrowphase_patch_collection_type)
    (ss : list pending_send) : list narrowphase_patch_collection_type :=
  foldl (release p) elems ss.

(** The four per-round containers that [init_broadphase] clears. *)
Definition round_state_empty (o : impl) : Prop :=
  local_results o = [] /\
  active_narrowphase_indices o = [] /\
  active_narrowphase_local_index o = [] /\
  narrowphase_patch_cache o = [].

(** The three collection proxies of an object. *)
Definition store_handles (o : impl) : vrt_proxy * vrt_proxy * vrt_proxy :=
  (broadphase_patch_collection_proxy o,
   narrowphase_patch_collection_proxy o,
   narrowphase_collection_proxy o).

(** [n] calls of [init_broadphase] in a row, each continuing from the
    state the previous one left. *)
Fixpoint init_broadphase_times (n : nat) (ctx : context) (s : impl * runtime)
    : impl * runtime :=
  match n with
  | 0 => s
  | S n => init_broadphase_times n ctx (state_of (init_broadphase ctx s))
  end.

(** One round as the caller drives it on [this]:
    [init_broadphase(); broadphase( _other ); end_phase()]. *)
Definition round (BVH_COPY_ALL_NARROWPHASE_PATCHES : bool) (ctx : context)
    (this _other : object_ref) (w : world) : outcome world :=
  init_broadphase_on ctx this w >>>
  broadphase BVH_COPY_ALL_NARROWPHASE_PATCHES ctx this _other >>>
  fun w => Done (with_object this end_phase w).

(** The collections that the first [init_broadphase] of an object with
    [od_factor] patches per node registers with a runtime that holds [n]
    collections. *)
Definition created_stores (ctx : context) (od_factor n : nat) : list collection :=
  [ {| coll_proxy := proxy_id n;
       coll_kind := broadphase_patch_collection;
       coll_shape := bounds (od_factor * getNumNodes ctx) |};
    {| coll_proxy := proxy_id (S n);
       coll_kind := narrowphase_patch_collection;
       coll_shape := bounds (od_factor * getNumNodes ctx) |};
    {| coll_proxy := proxy_id (S (S n));
       coll_kind := narrowphase_collection;
       coll_shape := dynamic_membership |} ].

(** The idiom of a collective step whose work is done by the first index:
    [if ( _idx.x() == 0 ) return s; else return pending_send{ nullptr };] *)
Definition at_index_0 (s : pending_send) (idx : nat) : pending_send :=
  if decide (idx = 0) then s else null_send.

(** The steps of the narrowphase protocol as [narrowphase] schedules
    them for the object [o], the other object [o'] and this node, in
    protocol order: activation, ghost request, the two ghost exchange
    passes, the exact test and the clear.  Every step runs over the
    indices of [o]; both passes use the offset of [o]. *)
Definition narrowphase_protocol (ctx : context) (o o' : impl) : list step :=
  let offset := getNode ctx * overdecomposition o in
  [ {| step_label := "activate_narrowphase_step"; kind := merge;
       sends := run_action (at_index_0 (call_activate_narrowphase 0 (objgroup o)))
                  (chainset o) |};
    {| step_label := "request_ghosts"; kind := collective;
       sends := run_action
                  (at_index_0 (call_request_ghosts 0 (objgroup o) (objgroup o')))
                  (chainset o) |};
    {| step_label := "ghost_this"; kind := collective;
       sends := run_action
                  (fun i => call_ghost (i + offset) (objgroup o)
                              (narrowphase_patch_collection_proxy o))
                  (chainset o) |};
    {| step_label := "ghost_other"; kind := collective;
       sends := run_action
                  (fun i => call_ghost (i + offset) (objgroup o')
                              (narrowphase_patch_collection_proxy o'))
                  (chainset o) |};
    {| step_label := "narrowphase"; kind := merge;
       sends := run_action (at_index_0 (call_narrowphase 0 (objgroup o)))
                  (chainset o) |};
    {| step_label := "clear_narrowphase_step"; kind := collective;
       sends := run_action (at_index_0 (call_clear_narrowphase 0 (objgroup o)))
                  (chainset o) |} ].



(** The steps scheduled on the object [ref] between the worlds [w] and
    [w']. *)
Definition scheduled_between (ref : object_ref) (w w' : world) : list step :=
  drop (length (steps (chainset (objects w ref))))
       (steps (chainset (objects w' ref))).

(** The merge steps of a schedule: [mergeStepCollective] links them into
    the chain set of the other object as well. *)
Definition merge_steps (l : list step) : list step :=
  filter (fun st => kind st = merge) l.

(** The modification bracket that [broadphase] schedules around the
    overlap determination, for the object [o], the other object [o'] and
    this node. *)
Definition broadphase_bracket (ctx : context) (o o' : impl) : list step :=
  let offset := getNode ctx * overdecomposition o in
  [ {| step_label := "start broadphase insertion"; kind := collective;
       sends := run_action
                  (at_index_0 (send_holder (objgroup o) (getNode ctx)
                                 begin_narrowphase_modification))
                  (chainset o) |};
    {| step_label := "broadphase_step"; kind := merge;
       sends := run_action
                  (fun i => call_broadphase (i + offset) i (getNode ctx)
                              (broadphase_patch_collection_proxy o)
                              (objgroup o) (objgroup o'))
                  (chainset o) |};
    {| step_label := "finalize broadphase insertion"; kind := collective;
       sends := run_action
                  (at_index_0 (send_holder (objgroup o) (getNode ctx)
                                 finish_narrowphase_modification))
                  (chainset o) |} ].

(** The two ways of populating the narrowphase payloads. *)
Inductive population_mode : Type :=
| copy_all
| active_only.

#[global] Instance population_mode_eq_dec : EqDecision population_mode.
Proof. solve_decision. Defined.

(** The mode a build of the file runs: copy-all when
    [BVH_COPY_ALL_NARROWPHASE_PATCHES] is defined, active-only when it is
    not. *)
Definition build_mode (BVH_COPY_ALL_NARROWPHASE_PATCHES : bool) : population_mode :=
  if BVH_COPY_ALL_NARROWPHASE_PATCHES then copy_all else active_only.

(** Active-only population: the first index asks the coordinator of this
    node to set up the narrowphase patches. *)
Definition active_population_step (ctx : context) (o : impl) : step :=
  {| step_label := "set_narrowphase_patches"; kind := collective;
     sends := run_action
                (at_index_0 (send_holder (objgroup o) (getNode ctx) setup_narrowphase))
                (chainset o) |}.

(** Copy-all population: a per-index step in which every index sends the
    payload message of its local patch, stamped with the patch and the
    node, to the narrowphase patch store at the global id of the patch. *)
Definition publishes_every_patch (ctx : context) (o : impl) (st : step) : Prop :=
  step_label st = "narrowphase_patch_step" /\
  kind st = per_index /\
  map fst (sends st) = indices (chainset o) /\
  forall i s, (i, s) ∈ sends st ->
    exists msg,
      s = send_narrowphase_patch (narrowphase_patch_collection_proxy o)
            (i + getNode ctx * overdecomposition o) msg /\
      patch_meta msg = local_patches o !!! i /\
      origin_node msg = getNode ctx.

(** Which population a step performs, if any. *)
Definition population_mode_of (st : step) : option population_mode :=
  if decide (step_label st = "narrowphase_patch_step") then Some copy_all
  else if decide (step_label st = "set_narrowphase_patches") then Some active_only
  else None.

(** The object has its patches and message slots, one per index, as
    [set_entity_data_impl] leaves them on an object whose chain set has
    the indices below the overdecomposition factor. *)
Definition patches_ready (o : impl) : bool :=
  bool_decide (length (local_patches o) = overdecomposition o)
  && bool_decide (length (narrowphase_patch_messages o) = overdecomposition o)
  && forallb (fun i => bool_decide (i < overdecomposition o)) (indices (chainset o)).

(** The two control messages of the modification bracket. *)
Definition is_modification_message (s : pending_send) : bool :=
  match s with
  | send_holder _ _ begin_narrowphase_modification => true
  | send_holder _ _ finish_narrowphase_modification => true
  | _ => false
  end.

Definition sends_modification_message (st : step) : bool :=
  existsb (fun p => is_modification_message p.2) (sends st).

(** The world after the three steps of the bracket, and the payload
    population that follows: the two parts of [broadphase] before its call
    of [narrowphase]. *)
Definition after_bracket (ctx : context) (this _other : object_ref) (w : world) : world :=
  let offset := getNode ctx * overdecomposition (objects w this) in
  let w := with_object this (on_chainset (nextStepCollective "start broadphase insertion"
             (fun _local_idx =>
                if decide (_local_idx = 0)
                then send_holder (objgroup (objects w this)) (getNode ctx)
                       begin_narrowphase_modification
                else null_send))) w in
  let w := mergeStepCollective "broadphase_step" this _other (fun _idx =>
             call_broadphase (_idx + offset) _idx (getNode ctx)
               (broadphase_patch_collection_proxy (objects w this))
               (objgroup (objects w this)) (objgroup (objects w _other))) w in
  with_object this (on_chainset (nextStepCollective "finalize broadphase insertion"
    (fun _local_idx =>
       if decide (_local_idx = 0)
       then send_holder (objgroup (objects w this)) (getNode ctx)
              finish_narrowphase_modification
       else null_send))) w.

Definition populate (BVH_COPY_ALL_NARROWPHASE_PATCHES : bool) (ctx : context)
    (this _other : object_ref) (w : world) : outcome world :=
  if BVH_COPY_ALL_NARROWPHASE_PATCHES then
    try_object this (set_all_narrow_patches ctx) w >>>
    try_object _other (set_all_narrow_patches ctx)
  else
    let w := with_object this (set_active_narrow_patches ctx) w in
    Done (with_object _other (set_active_narrow_patches ctx) w).

(** An object with other scheduled steps and other message slots: what
    the scheduling calls change. *)
Definition rescheduled (l : list step) (ms : list (option narrowphase_patch_msg))
    (o : impl) : impl :=
  set_chainset
    {| indices := indices (chainset o); steps := l; phases := phases (chainset o) |}
    (set_narrowphase_patch_messages ms o).

(** A step that carries no message of the modification bracket. *)
Definition quiet (st : step) : Prop := sends_modification_message st = false.

(** [o1] is [o] after further scheduling: steps were appended, message
    slots may have changed, nothing else. *)
Definition extends_schedule (o o1 : impl) (l : list step) : Prop :=
  exists ms, o1 = rescheduled (steps (chainset o) ++ l) ms o.

(** A population step of the mode that the build runs. *)
Definition population_of_build (BVH_COPY_ALL_NARROWPHASE_PATCHES : bool)
    (st : step) : Prop :=
  population_mode_of st = Some (build_mode BVH_COPY_ALL_NARROWPHASE_PATCHES) /\
  quiet st.

(** What the population step of an object is in each build: the request
    to the coordinator in an active-only build, the publication of every
    patch in a copy-all build (for an object that is ready). *)
Definition populates (BVH_COPY_ALL_NARROWPHASE_PATCHES : bool) (ctx : context)
    (o : impl) (st : step) : Prop :=
  if BVH_COPY_ALL_NARROWPHASE_PATCHES
  then patches_ready o = true -> publishes_every_patch ctx o st
  else st = active_population_step ctx o.

(** The part of a schedule of [this] that reaches the chain set of the
    object [ref] when the other object is [_other]: all of it on [this],
    the merge steps on [_other], nothing elsewhere. *)
Definition linked (this _other ref : object_ref) (l : list step) : list step :=
  if decide (ref = this) then l
  else if decide (ref = _other) then merge_steps l
  else [].

(** A ghost exchange pass serves the object [o]: for every local index
    of [o], the step action of that index addresses the patch in the
    narrowphase patch store of [o], at the global id that [o] gives it. *)
Definition ghost_pass_serves (ctx : context) (o : impl) (st : step) : bool :=
  forallb
    (fun i => bool_decide
                ((i, call_ghost (i + getNode ctx * overdecomposition o) (objgroup o)
                       (narrowphase_patch_collection_proxy o)) ∈ sends st))
    (seq 0 (overdecomposition o)).

(** The two ghost exchange passes among the steps of the protocol. *)
Definition ghost_pass_this (ctx : context) (o o' : impl) : option step :=
  narrowphase_protocol ctx o o' !! 2.

Definition ghost_pass_other (ctx : context) (o o' : impl) : option step :=
  narrowphase_protocol ctx o o' !! 3.

(** The chain set has the indices [0 .. overdecomposition - 1], as the
    constructor registers them. *)
Definition indices_registered (o : impl) : Prop :=
  indices (chainset o) = seq 0 (overdecomposition o).

(** Between the worlds [w] and [W] scheduling has appended the steps
    [l ref] to every object [ref], and has changed nothing else. *)
Definition scheduled_on (w W : world) (l : object_ref -> list step) : Prop :=
  forall ref,
    objects W ref
    = rescheduled (steps (chainset (objects w ref)) ++ l ref)
        (narrowphase_patch_messages (objects w ref)) (objects w ref).

(** ** Further vocabulary: accessors, call sequences, delivery *)

(** [collision_object::overdecomposition_factor()] *)
Definition overdecomposition_factor (o : impl) : nat := overdecomposition o.

(** The methods of a collision object that this file defines and that
    change the object or schedule steps. *)
Inductive method : Type :=
| m_initialize_split_indices (_splits : element_permutations)
| m_set_entity_data_impl (_data : Z) (_element_size : nat)
| m_init_broadphase
| m_broadphase (_other : object_ref)
| m_narrowphase (_other : object_ref)
| m_set_all_narrow_patches
| m_set_active_narrow_patches
| m_end_phase.

(** One call [this.m( ... )]. *)
Definition invoke (BVH_COPY_ALL_NARROWPHASE_PATCHES : bool) (ctx : context)
    (this : object_ref) (m : method) (w : world) : outcome world :=
  match m with
  | m_initialize_split_indices _splits =>
      Done (with_object this (initialize_split_indices _splits) w)
  | m_set_entity_data_impl _data _element_size =>
      try_object this (set_entity_data_impl ctx _data _element_size) w
  | m_init_broadphase => init_broadphase_on ctx this w
  | m_broadphase _other =>
      broadphase BVH_COPY_ALL_NARROWPHASE_PATCHES ctx this _other w
  | m_narrowphase _other => Done (narrowphase ctx this _other w)
  | m_set_all_narrow_patches => try_object this (set_all_narrow_patches ctx) w
  | m_set_active_narrow_patches =>
      Done (with_object this (set_active_narrow_patches ctx) w)
  | m_end_phase => Done (with_object this end_phase w)
  end.

(** A sequence of calls, each on its object; the process executes them
    until one stops it. *)
Fixpoint run (BVH_COPY_ALL_NARROWPHASE_PATCHES : bool) (ctx : context)
    (calls : list (object_ref * method)) (w : world) : outcome world :=
  match calls with
  | [] => Done w
  | (this, m) :: rest =>
      invoke BVH_COPY_ALL_NARROWPHASE_PATCHES ctx this m w
      >>> run BVH_COPY_ALL_NARROWPHASE_PATCHES ctx rest
  end.

(** What is fixed when the object is constructed. *)
Definition same_construction (o o' : impl) : Prop :=
  overdecomposition_factor o' = overdecomposition_factor o /\
  collision_idx o' = collision_idx o /\
  objgroup o' = objgroup o /\
  build_trees o' = build_trees o /\
  indices (chainset o') = indices (chainset o).

(** The publish message that a pending send carries to the collection
    [p], with its target index. *)
Definition geometry_addressed_to (p : vrt_proxy) (s : pending_send)
    : option (nat * broadphase_patch_msg) :=
  match s with
  | send_broadphase_patch p' target msg =>
      if decide (p' = p) then Some (target, msg) else None
  | _ => None
  end.

Definition payload_addressed_to (p : vrt_proxy) (s : pending_send)
    : option (nat * narrowphase_patch_msg) :=
  match s with
  | send_narrowphase_patch p' target msg =>
      if decide (p' = p) then Some (target, msg) else None
  | _ => None
  end.

(** The runtime delivers a message to the element at its target index
    and runs the handler there; a send that carries no such message
    leaves the collection alone. *)
Definition deliver {E M : Type} (decode : pending_send -> option (nat * M))
    (handler : E -> M -> E) (elems : list E) (s : pending_send) : list E :=
  match decode s with
  | Some (target, msg) => alter (fun c => handler c msg) target elems
  | None => elems
  end.

(** The elements of a broadphase patch collection after the sends [ss]
    have been released: [details::set_broadphase_patches] runs for each
    publish message addressed to the collection [p]. *)
Definition release_geometry (p : vrt_proxy)
    (elems : list broadphase_patch_collection_type) (ss : list pending_send)
    : list broadphase_patch_collection_type :=
  foldl (deliver (geometry_addressed_to p) details.set_broadphase_patches) elems ss.

(** The steps that [init_broadphase] schedules for the object [o] on this
    node when [p] is its broadphase patch store: the publication of the
    geometry of every patch and, if trees are built, the tree build. *)
Definition geometry_step (ctx : context) (p : vrt_proxy) (o : impl) : step :=
  {| step_label := "broadphase_patch_step"; kind := per_index;
     sends := run_action
                (fun i => send_broadphase_patch p
                            (i + getNode ctx * overdecomposition o)
                            {| bmsg_patch := local_patches o !!! i;
                               bmsg_origin_node := getNode ctx;
                               bmsg_local_idx := i |})
                (chainset o) |}.

Definition tree_step (ctx : context) (p : vrt_proxy) (o : impl) : step :=
  {| step_label := "build_tree_step"; kind := collective;
     sends := run_action
                (fun i => call_build_trees_top_down
                            (i + getNode ctx * overdecomposition o) (objgroup o) p)
                (chainset o) |}.

(** Every index of the chain set has a local patch. *)
Definition patches_cover_indices (o : impl) : bool :=
  forallb (fun i => bool_decide (i < length (local_patches o))) (indices (chainset o)).

(** Every step that the chain set has been given, the closed phases
    first. *)
Definition history (cs : CollectionChainSet) : list step :=
  concat (phases cs) ++ steps cs.

(** The object [o'] is a later state of the object [o]: it is constructed
    as [o] is, every step given to [o] is still in its place, and the
    stores of [o], if it had them, are still the stores of [o']. *)
Definition evolves (o o' : impl) : Prop :=
  same_construction o o' /\
  history (chainset o) `prefix_of` history (chainset o') /\
  (broadphase_patch_collection_proxy o <> no_vrt_proxy ->
   store_handles o' = store_handles o).

(** The call names the object [ref]: it is made on it, or passes it as
    the other object. *)
Definition names (ref : object_ref) (call : object_ref * method) : bool :=
  bool_decide (call.1 = ref)
  || match call.2 with
     | m_broadphase _other | m_narrowphase _other => bool_decide (_other = ref)
     | _ => false
     end.

(** ** The interaction store

    The routines of [collision_object_impl] that the steps call
    ([broadphase], [activate_narrowphase], [request_ghosts], [ghost],
    [narrowphase], [clear_narrowphase]) and the coordinator they act on
    are code of the repository that is not under src/. *)











(** ** Split/patch consistency *)

(** A loop that assigns [f i] to slot [i] for [i] from 0 fills a prefix. *)
Lemma foldl_insert_prefix {A : Type} (f : nat -> A) (ps : list A) (n : nat) :
  n <= length ps ->
  foldl (fun ps i => <[i := f i]> ps) ps (seq 0 n) = map f (seq 0 n) ++ drop n ps.
Proof.
  induction n as [|n IH]; intros Hn; [done|].
  rewrite seq_S, foldl_app, map_app. simpl.
  rewrite IH by lia.
  destruct (lookup_lt_is_Some_2 ps n) as [x Hx]; [lia|].
  rewrite (drop_S _ _ _ Hx).
  rewrite insert_app_r_alt; rewrite length_map, length_seq; [|lia].
  rewrite Nat.sub_diag. simpl.
  by rewrite <- app_assoc.
Qed.

Lemma ordered_cons x y rest :
  ordered (x :: y :: rest) = true -> (x <= y)%Z /\ ordered (y :: rest) = true.
Proof.
  simpl. intros [H1 H2]%andb_true_iff. split; [lia|done].
Qed.

(** In an ordered list, earlier entries are below later ones. *)
Lemma ordered_lookup_le (b : list Z) (i j : nat) (x y : Z) :
  ordered b = true -> i <= j -> b !! i = Some x -> b !! j = Some y -> (x <= y)%Z.
Proof.
  revert i j x y. induction b as [|a b IH]; intros i j x y Hb Hij Hi Hj; [done|].
  destruct b as [|c b].
  { destruct i, j; simplify_eq/=; lia. }
  apply ordered_cons in Hb as [Hac Hb].
  destruct i as [|i].
  - destruct j as [|j]; simplify_eq/=; [lia|].
    assert (c <= y)%Z; [|lia].
    apply (IH 0 j c y); auto with lia.
  - destruct j as [|j]; [lia|]. simpl in *.
    apply (IH i j x y); auto with lia.
Qed.

Lemma intervals_lookup (b : list Z) (i : nat) (x y : Z) :
  b !! i = Some x -> b !! S i = Some y ->
  intervals b !! i = Some {| span_begin := x; span_size := (y - x)%Z |}.
Proof.
  revert i. induction b as [|a b IH]; intros i Hi HSi; [done|].
  destruct b as [|c b]; [by destruct i|].
  destruct i as [|i]; [by simplify_eq/=|].
  apply (IH i); done.
Qed.

Lemma length_intervals (b : list Z) : length (intervals b) = pred (length b).
Proof.
  induction b as [|a b IH]; [done|].
  destruct b as [|c b]; [done|].
  change (S (length (intervals (c :: b))) = S (length b)).
  rewrite IH. done.
Qed.

(** The last entry of [x :: b]. *)
Fixpoint last_from (x : Z) (b : list Z) : Z :=
  match b with
  | [] => x
  | y :: rest => last_from y rest
  end.

Lemma last_from_snoc (x : Z) (b : list Z) (n : Z) : last_from x (b ++ [n]) = n.
Proof. revert x. induction b as [|y b IH]; intros x; [done|apply IH]. Qed.

Lemma ordered_last_from (x : Z) (b : list Z) :
  ordered (x :: b) = true -> (x <= last_from x b)%Z.
Proof.
  revert x. induction b as [|y b IH]; intros x Hb; [simpl; lia|].
  apply ordered_cons in Hb as [Hxy Hb].
  specialize (IH y Hb). simpl. lia.
Qed.

(** The intervals between ordered boundaries, one after the other, are the
    range from the first boundary to the last. *)
Lemma intervals_concat (x : Z) (b : list Z) :
  ordered (x :: b) = true ->
  concat (map span_indices (intervals (x :: b)))
  = seqZ x (last_from x b - x).
Proof.
  revert x. induction b as [|y b IH]; intros x Hb.
  { simpl. by rewrite Z.sub_diag. }
  pose proof (ordered_cons _ _ _ Hb) as [Hxy Hb'].
  pose proof (ordered_last_from _ _ Hb') as Hlast.
  change (seqZ x (y - x) ++ concat (map span_indices (intervals (y :: b)))
          = seqZ x (last_from y b - x)).
  rewrite IH by done.
  replace (last_from y b - x)%Z with ((y - x) + (last_from y b - y))%Z by lia.
  rewrite seqZ_app by lia.
  by replace (x + (y - x))%Z with y by lia.
Qed.

(** What [set_entity_data_impl] computes when the split count matches
    the overdecomposition factor. *)
Lemma set_entity_data_impl_matching (ctx : context) (_data : Z) (_element_size : nat)
    (o : impl) :
  extent (splits o) + 1 = overdecomposition o ->
  exists o',
    set_entity_data_impl ctx _data _element_size o = Done o' /\
    local_patches o'
    = map (entity_patch (getNode ctx) (set_num_splits (extent (splits o)) o))
          (seq 0 (overdecomposition o)) /\
    overdecomposition o' = overdecomposition o.
Proof.
  intros Hk. eexists. unfold set_entity_data_impl, always_assert. simpl.
  rewrite bool_decide_eq_true_2 by done.
  set (ps := resize (overdecomposition o) empty_patch []).
  assert (length ps = overdecomposition o) as Hps by apply length_resize.
  rewrite foldl_insert_prefix by lia.
  rewrite drop_ge, app_nil_r by lia.
  rewrite bool_decide_eq_true_2.
  2: { by rewrite length_map, length_seq. }
  split; [reflexivity|]. simpl. split; [|done].
  apply map_ext. intros i. reflexivity.
Qed.

(** Iteration [i] of the loop reads boundary [i] and boundary [i + 1]. *)
Lemma entity_patch_boundaries (rank : nat) (o : impl) (i : nat) (a b : Z) :
  num_splits o = length (splits_h o) ->
  (0%Z :: splits_h o ++ [Z.of_nat (length (split_indices_h o))]) !! i = Some a ->
  (0%Z :: splits_h o ++ [Z.of_nat (length (split_indices_h o))]) !! S i = Some b ->
  entity_patch rank o i
  = broadphase_patch_type (i + rank * overdecomposition o)
      {| span_begin := a; span_size := wrap64 (b - a) |}.
Proof.
  intros Hn Ha Hb. unfold entity_patch.
  assert (i <= length (splits_h o)) as Hi.
  { apply lookup_lt_Some in Hb. simpl in Hb. rewrite length_app in Hb. simpl in Hb. lia. }
  f_equal. simpl in Hb.
  assert ((if decide (i = 0) then 0%Z else splits_h o !!! (i - 1)) = a) as ->.
  { destruct (decide (i = 0)) as [->|Hne]; [by simplify_eq/=|].
    destruct i as [|i]; [done|]. simpl in Ha.
    rewrite lookup_app_l in Ha by lia.
    replace (S i - 1) with i by lia.
    by apply list_lookup_total_correct. }
  assert ((if decide (i = num_splits o)
           then Z.of_nat (length (split_indices_h o))
           else splits_h o !!! i) = b) as ->; [|done].
  rewrite Hn. destruct (decide (i = length (splits_h o))) as [->|Hne].
  - rewrite lookup_app_r in Hb by lia. rewrite Nat.sub_diag in Hb. by simplify_eq/=.
  - rewrite lookup_app_l in Hb by lia. by apply list_lookup_total_correct.
Qed.

(** C1. For every valid partition plan with [k - 1] ordered split
    boundaries over [N] permuted entities, where [k] is the
    overdecomposition factor, [set_entity_data_impl] completes and leaves
    exactly [k] local patches; patch [i] has the global id
    [i + rank * k] and its span covers boundary [i] up to boundary
    [i + 1], the boundaries being 0, the splits and [N]; the positions
    covered by the [k] spans, taken in patch order, are exactly
    [0, 1, ..., N - 1], each once. *)
Theorem set_entity_data_partitions (ctx : context) (_data : Z) (_element_size : nat)
    (plan : element_permutations) (o : impl) (k : nat) :
  valid_plan plan = true ->
  overdecomposition o = k ->
  length (perm_splits plan) + 1 = k ->
  exists o',
    set_entity_data_impl ctx _data _element_size (initialize_split_indices plan o)
    = Done o' /\
    length (local_patches o') = k /\
    (forall i, i < k ->
       exists a b,
         boundaries plan !! i = Some a /\
         boundaries plan !! S i = Some b /\
         local_patches o' !! i
         = Some (broadphase_patch_type (i + getNode ctx * k)
                   {| span_begin := a; span_size := (b - a)%Z |})) /\
    concat (map patch_indices (local_patches o'))
    = seqZ 0 (Z.of_nat (length (perm_indices plan))).
Proof.
  intros [Hord HN%Z.ltb_lt]%andb_true_iff Hod Hk.
  set (o1 := initialize_split_indices plan o).
  destruct (set_entity_data_impl_matching ctx _data _element_size o1)
    as (o' & Hrun & Hpatches & _); [simpl; lia|].
  exists o'. split; [done|].
  assert (overdecomposition o1 = k) as Hod1 by done.
  rewrite Hod1 in Hpatches.
  assert (length (boundaries plan) = S k) as Hlen.
  { unfold boundaries. simpl. rewrite length_app. simpl. lia. }
  assert (forall i, i < k ->
    exists a b,
      boundaries plan !! i = Some a /\ boundaries plan !! S i = Some b /\
      local_patches o' !! i
      = Some (broadphase_patch_type (i + getNode ctx * k)
                {| span_begin := a; span_size := (b - a)%Z |})) as Hpoint.
  { intros i Hi.
    destruct (lookup_lt_is_Some_2 (boundaries plan) i) as [a Ha]; [lia|].
    destruct (lookup_lt_is_Some_2 (boundaries plan) (S i)) as [b Hb]; [lia|].
    exists a, b. split; [done|]. split; [done|].
    rewrite Hpatches, list_lookup_fmap, lookup_seq_lt by done. simpl.
    rewrite (entity_patch_boundaries _ _ _ a b); [|done|done|done].
    simpl. rewrite Hod. do 3 f_equal.
    assert (a <= b)%Z by (apply (ordered_lookup_le _ i (S i) _ _ Hord); auto with lia).
    assert (0 <= a)%Z.
    { apply (ordered_lookup_le _ 0 i _ _ Hord); auto with lia. }
    assert (b <= Z.of_nat (length (perm_indices plan)))%Z.
    { apply (ordered_lookup_le _ (S i) k _ _ Hord); auto with lia.
      unfold boundaries. replace k with (S (length (perm_splits plan))) by lia.
      simpl. rewrite lookup_app_r by lia. by rewrite Nat.sub_diag. }
    unfold wrap64. apply Z.mod_small. lia. }
  split; [by rewrite Hpatches, length_map, length_seq|].
  split; [done|].
  assert (map patch_indices (local_patches o')
          = map span_indices (intervals (boundaries plan))) as ->.
  { apply list_eq. intros i. rewrite !list_lookup_fmap.
    destruct (decide (i < k)) as [Hi|Hi].
    - destruct (Hpoint i Hi) as (a & b & Ha & Hb & ->).
      by rewrite (intervals_lookup _ _ _ _ Ha Hb).
    - rewrite !lookup_ge_None_2; [done| |].
      + rewrite length_intervals, Hlen. simpl. lia.
      + rewrite Hpatches, length_map, length_seq. lia. }
  unfold boundaries in *. rewrite intervals_concat by done.
  by rewrite last_from_snoc, Z.sub_0_r.
Qed.

(** ** The fatal stop of [set_entity_data_impl] *)

(** The second assertion of [set_entity_data_impl] never fires. *)
Lemma set_entity_data_impl_stops (ctx : context) (_data : Z) (_element_size : nat)
    (o : impl) :
  extent (splits o) + 1 <> overdecomposition o ->
  set_entity_data_impl ctx _data _element_size o
  = Stopped
      (assertion_failed splits_mismatch_format
         [extent (splits o) + 1; overdecomposition o])
      (set_local_patches (replicate (overdecomposition o) empty_patch)
         (set_num_splits (extent (splits o)) o)).
Proof.
  intros Hk. unfold set_entity_data_impl, always_assert. simpl.
  rewrite bool_decide_eq_false_2 by done.
  by rewrite resize_nil.
Qed.

(** C6. [set_entity_data_impl] stops the process exactly when the number
    of split boundaries plus one differs from the overdecomposition
    factor; the diagnostic is the split-mismatch message with the two
    mismatched quantities, splits plus one and the overdecomposition
    factor, as its arguments; when the two are equal the call
    completes. *)
Theorem set_entity_data_fatal_iff (ctx : context) (_data : Z) (_element_size : nat)
    (o : impl) :
  let r := set_entity_data_impl ctx _data _element_size o in
  (is_done r = false <-> extent (splits o) + 1 <> overdecomposition o) /\
  (is_done r = false ->
     exists o', r = Stopped
                      (assertion_failed splits_mismatch_format
                         [extent (splits o) + 1; overdecomposition o]) o') /\
  (is_done r = true <-> extent (splits o) + 1 = overdecomposition o).
Proof.
  intros r. subst r.
  destruct (decide (extent (splits o) + 1 = overdecomposition o)) as [Heq|Hne].
  - destruct (set_entity_data_impl_matching ctx _data _element_size o Heq)
      as (o' & -> & _). simpl. repeat split; try done.
  - rewrite (set_entity_data_impl_stops ctx _data _element_size o Hne). simpl.
    repeat split; try done. eauto.
Qed.

(** ** The narrowphase publish handler *)

Lemma release_length p elems s : length (release p elems s) = length elems.
Proof.
  destruct s; simpl; try done. case_decide; [apply length_alter|done].
Qed.

(** A record whose pending set is empty keeps it empty under further
    publish messages, whatever their target. *)
Lemma release_all_keeps_empty p ss elems t :
  (exists c, elems !! t = Some c /\ ghost_destinations c = []) ->
  exists c, release_all p elems ss !! t = Some c /\ ghost_destinations c = [].
Proof.
  revert elems. induction ss as [|s ss IH]; intros elems Hc; [done|].
  unfold release_all in *. simpl. apply IH. clear IH.
  destruct Hc as (c & Hc & Hg).
  destruct s; simpl; eauto. case_decide; [|by eauto].
  destruct (decide (target = t)) as [->|Hne].
  - rewrite list_lookup_alter_eq, Hc. simpl. eauto.
  - rewrite list_lookup_alter_ne by done. eauto.
Qed.

(** C7. The handler of a narrowphase publish message installs the patch
    metadata of the message, leaves exactly [data_size] payload bytes,
    the first [data_size] bytes of the message payload, records the
    origin node and leaves the pending ghost destinations empty,
    whatever the record held before.  Hence, once the publish messages
    of a payload population have been released in any order, every
    record of the collection that one of them addressed has an empty
    pending set. *)
Theorem set_narrowphase_patches_installs
    (_coll : narrowphase_patch_collection_type) (_msg : narrowphase_patch_msg)
    (p : vrt_proxy) (elems : list narrowphase_patch_collection_type)
    (ss : list pending_send) :
  data_size _msg <= length (user_data _msg) ->
  let c' := details.set_narrowphase_patches _coll _msg in
  (ncoll_patch_meta c' = patch_meta _msg /\
   ncoll_bytes c' = take (data_size _msg) (user_data _msg) /\
   length (ncoll_bytes c') = data_size _msg /\
   ncoll_origin_node c' = origin_node _msg /\
   ghost_destinations c' = []) /\
  (forall target msg,
     send_narrowphase_patch p target msg ∈ ss ->
     target < length elems ->
     exists c, release_all p elems ss !! target = Some c /\
               ghost_destinations c = []).
Proof.
  intros Hsize c'. split.
  - subst c'. unfold details.set_narrowphase_patches, details.memcpy. simpl.
    assert (drop (data_size _msg)
              (resize (data_size _msg) Byte.x00 (ncoll_bytes _coll)) = []) as ->.
    { apply drop_ge. by rewrite length_resize. }
    rewrite app_nil_r. repeat split; try done.
    rewrite length_take. lia.
  - clear. revert elems. induction ss as [|s ss IH]; intros elems target msg Hin Hlt.
    { by apply elem_of_nil in Hin. }
    apply elem_of_cons in Hin as [<-|Hin].
    + unfold release_all. simpl. rewrite decide_True by done.
      apply release_all_keeps_empty.
      destruct (lookup_lt_is_Some_2 elems target Hlt) as [c Hc].
      rewrite list_lookup_alter_eq, Hc. simpl. eauto.
    + unfold release_all. simpl. apply (IH _ target msg Hin).
      by rewrite release_length.
Qed.

(** ** Worlds and [init_broadphase] *)

Lemma objects_with_object_eq (ref : object_ref) (f : impl -> impl) (w : world) :
  objects (with_object ref f w) ref = f (objects w ref).
Proof. unfold with_object. simpl. apply fn_lookup_insert. Qed.

Lemma objects_with_object_ne (ref ref' : object_ref) (f : impl -> impl) (w : world) :
  ref <> ref' -> objects (with_object ref f w) ref' = objects w ref'.
Proof. intros Hne. unfold with_object. simpl. by apply fn_lookup_insert_ne. Qed.

Lemma objects_with_object (ref ref' : object_ref) (f : impl -> impl) (w : world) :
  objects (with_object ref f w) ref'
  = if decide (ref = ref') then f (objects w ref') else objects w ref'.
Proof.
  destruct (decide (ref = ref')) as [<-|Hne].
  - apply objects_with_object_eq.
  - by apply objects_with_object_ne.
Qed.

(** [init_broadphase] touches the round containers only by clearing
    them, before anything else. *)
Lemma init_broadphase_round_state (ctx : context) (o : impl) (r : runtime) :
  round_state_empty (state_of (init_broadphase ctx (o, r))).1.
Proof.
  unfold init_broadphase.
  destruct (decide _); simpl;
    (destruct (forallb _ _); [destruct (build_trees o)|]); by repeat split.
Qed.

Lemma init_broadphase_on_object (ctx : context) (this : object_ref) (w : world) :
  objects (state_of (init_broadphase_on ctx this w)) this
  = (state_of (init_broadphase ctx (objects w this, rt w))).1.
Proof.
  unfold init_broadphase_on.
  destruct (init_broadphase ctx (objects w this, rt w)) as [[o r]|why [o r]];
    simpl; apply fn_lookup_insert.
Qed.

(** What [init_broadphase] does to the stores. *)
Lemma init_broadphase_stores (ctx : context) (o : impl) (r : runtime) :
  let s := state_of (init_broadphase ctx (o, r)) in
  if decide (broadphase_patch_collection_proxy o = no_vrt_proxy) then
    collections s.2
    = collections r ++ created_stores ctx (overdecomposition o) (length (collections r)) /\
    store_handles s.1
    = (proxy_id (length (collections r)),
       proxy_id (S (length (collections r))),
       proxy_id (S (S (length (collections r)))))
  else
    collections s.2 = collections r /\ store_handles s.1 = store_handles o.
Proof.
  unfold init_broadphase, makeCollection, store_handles, created_stores. simpl.
  destruct (decide (broadphase_patch_collection_proxy o = no_vrt_proxy)); simpl.
  - rewrite !length_app. simpl. rewrite !Nat.add_1_r.
    destruct (forallb _ _); [destruct (build_trees o)|]; simpl;
      by rewrite <- !app_assoc.
  - destruct (forallb _ _); [destruct (build_trees o)|]; done.
Qed.

Lemma init_broadphase_times_stores (n : nat) (ctx : context) (s : impl * runtime) :
  broadphase_patch_collection_proxy s.1 <> no_vrt_proxy ->
  collections (init_broadphase_times n ctx s).2 = collections s.2 /\
  store_handles (init_broadphase_times n ctx s).1 = store_handles s.1.
Proof.
  revert s. induction n as [|n IH]; intros [o r] Hvalid; [done|].
  change (init_broadphase_times (S n) ctx (o, r))
    with (init_broadphase_times n ctx (state_of (init_broadphase ctx (o, r)))).
  simpl in Hvalid.
  pose proof (init_broadphase_stores ctx o r) as Hs. cbv zeta in Hs.
  rewrite decide_False in Hs by done. destruct Hs as [Hc Hh].
  destruct (IH (state_of (init_broadphase ctx (o, r)))) as [IHc IHh].
  { unfold store_handles in Hh. congruence. }
  by rewrite IHc, IHh.
Qed.


(** ** The schedule of the narrowphase protocol *)

Lemma run_action_ext (f g : nat -> pending_send) (cs cs' : CollectionChainSet) :
  indices cs = indices cs' -> (forall i, f i = g i) ->
  run_action f cs = run_action g cs'.
Proof.
  intros Hi Hfg. unfold run_action. rewrite Hi.
  apply map_ext. intros i. by rewrite Hfg.
Qed.

(** Two schedules are equal when their steps agree label by label and
    action by action. *)
Ltac schedule_eq :=
  repeat match goal with
    | |- _ ++ _ = _ ++ _ => f_equal
    | |- _ :: _ = _ :: _ => f_equal
    | |- Build_step _ _ _ = Build_step _ _ _ => f_equal
    | |- run_action _ _ = run_action _ _ =>
        apply run_action_ext;
        [ done
        | let i := fresh "i" in
          intros i; unfold at_index_0;
          try (destruct (decide (i = 0)) as [->|]); done ]
    end.

Lemma rescheduled_id (o : impl) :
  rescheduled (steps (chainset o)) (narrowphase_patch_messages o) o = o.
Proof. destruct o as [? ? ? [] ?]. reflexivity. Qed.

Lemma scheduled_on_refl (w : world) : scheduled_on w w (fun _ => []).
Proof. intros ref. by rewrite app_nil_r, rescheduled_id. Qed.

Lemma scheduled_on_ext (w W : world) (l l' : object_ref -> list step) :
  scheduled_on w W l -> (forall ref, l ref = l' ref) -> scheduled_on w W l'.
Proof. intros H Hl ref. by rewrite <- Hl. Qed.

Lemma objgroup_rescheduled l ms (o : impl) :
  objgroup (rescheduled l ms o) = objgroup o.
Proof. reflexivity. Qed.

Lemma overdecomposition_rescheduled l ms (o : impl) :
  overdecomposition (rescheduled l ms o) = overdecomposition o.
Proof. reflexivity. Qed.

Lemma broadphase_proxy_rescheduled l ms (o : impl) :
  broadphase_patch_collection_proxy (rescheduled l ms o)
  = broadphase_patch_collection_proxy o.
Proof. reflexivity. Qed.

Lemma narrowphase_proxy_rescheduled l ms (o : impl) :
  narrowphase_patch_collection_proxy (rescheduled l ms o)
  = narrowphase_patch_collection_proxy o.
Proof. reflexivity. Qed.

(** One [nextStepCollective] on the chain set of [this]. *)
Lemma collective_stage (w W : world) (l : object_ref -> list step)
    (this : object_ref) (label : string) (f g : nat -> pending_send) :
  scheduled_on w W l ->
  (scheduled_on w W l -> forall i, f i = g i) ->
  scheduled_on w
    (with_object this (on_chainset (nextStepCollective label f)) W)
    (fun ref =>
       l ref ++
       if decide (ref = this)
       then [ {| step_label := label; kind := collective;
                 sends := run_action g (chainset (objects w this)) |} ]
       else []).
Proof.
  intros HW Hfg ref. specialize (Hfg HW). rewrite objects_with_object.
  destruct (decide (this = ref)) as [<-|Hne].
  - rewrite decide_True by done. rewrite (HW this).
    unfold rescheduled, on_chainset, nextStepCollective, add_step, set_chainset.
    simpl. rewrite <- app_assoc. do 3 f_equal.
    schedule_eq; by apply run_action_ext.
  - rewrite decide_False by done. by rewrite app_nil_r, (HW ref).
Qed.

(** One [mergeStepCollective] on the chain sets of [a] and [b]. *)
Lemma merge_stage (w W : world) (l : object_ref -> list step)
    (a b : object_ref) (label : string) (f g : nat -> pending_send) :
  scheduled_on w W l ->
  (scheduled_on w W l -> forall i, f i = g i) ->
  scheduled_on w
    (mergeStepCollective label a b f W)
    (fun ref =>
       l ref ++
       if decide (ref = a \/ ref = b)
       then [ {| step_label := label; kind := merge;
                 sends := run_action g (chainset (objects w a)) |} ]
       else []).
Proof.
  intros HW Hfg ref. specialize (Hfg HW). unfold mergeStepCollective. cbv zeta.
  assert (merged_step label f (chainset (objects W a))
          = {| step_label := label; kind := merge;
               sends := run_action g (chainset (objects w a)) |}) as ->.
  { unfold merged_step. f_equal. apply run_action_ext; [|done]. by rewrite (HW a). }
  set (st := {| step_label := label |}).
  assert (forall r, objects (with_object a (on_chainset (add_step st)) W) r
                    = rescheduled
                        (steps (chainset (objects w r))
                         ++ l r ++ if decide (r = a) then [st] else [])
                        (narrowphase_patch_messages (objects w r)) (objects w r)) as Ha.
  { intros r. rewrite objects_with_object.
    destruct (decide (a = r)) as [<-|Hne].
    - rewrite decide_True by done. rewrite (HW a).
      unfold rescheduled, on_chainset, add_step, set_chainset. simpl.
      by rewrite <- app_assoc.
    - rewrite decide_False by done. by rewrite app_nil_r, (HW r). }
  destruct (decide (a = b)) as [<-|Hab].
  - rewrite Ha. do 3 f_equal.
    repeat case_decide; first [done | exfalso; intuition congruence].
  - rewrite objects_with_object.
    destruct (decide (b = ref)) as [<-|Hne].
    + rewrite Ha. rewrite decide_False by done. rewrite decide_True by auto.
      unfold rescheduled, on_chainset, add_step, set_chainset. simpl.
      by rewrite app_nil_r, <- app_assoc.
    + rewrite Ha. do 3 f_equal.
      repeat case_decide; first [done | exfalso; intuition congruence].
Qed.

(** Solves the side condition of a stage: the step action as the code
    writes it, which reads the objects of the current world, is the
    action over the objects of the initial world. *)
Ltac stage_action :=
  let H := fresh "H" in
  let i := fresh "i" in
  intros H i;
  lazymatch type of H with
  | scheduled_on ?w ?w _ => idtac
  | _ =>
      rewrite ?(H _), ?objgroup_rescheduled, ?overdecomposition_rescheduled,
        ?broadphase_proxy_rescheduled, ?narrowphase_proxy_rescheduled
  end;
  reflexivity.

Ltac stages :=
  repeat first
    [ eapply collective_stage; [|stage_action]
    | eapply merge_stage; [|stage_action]
    | apply scheduled_on_refl ].

Lemma merge_steps_narrowphase_protocol (ctx : context) (o o' : impl) :
  merge_steps (narrowphase_protocol ctx o o')
  = [ {| step_label := "activate_narrowphase_step"; kind := merge;
         sends := run_action (at_index_0 (call_activate_narrowphase 0 (objgroup o)))
                    (chainset o) |};
      {| step_label := "narrowphase"; kind := merge;
         sends := run_action (at_index_0 (call_narrowphase 0 (objgroup o)))
                    (chainset o) |} ].
Proof. reflexivity. Qed.

Lemma merge_steps_broadphase_bracket (ctx : context) (o o' : impl) :
  merge_steps (broadphase_bracket ctx o o')
  = [ {| step_label := "broadphase_step"; kind := merge;
         sends := run_action
                    (fun i => call_broadphase (i + getNode ctx * overdecomposition o)
                                i (getNode ctx)
                                (broadphase_patch_collection_proxy o)
                                (objgroup o) (objgroup o'))
                    (chainset o) |} ].
Proof. reflexivity. Qed.

(** What [narrowphase] schedules, seen from any object: the six steps of
    the protocol on [this], the two merge steps on [_other], nothing on
    other objects; nothing else changes. *)
Lemma narrowphase_scheduled (ctx : context) (this _other : object_ref) (w : world) :
  scheduled_on w (narrowphase ctx this _other w)
    (fun ref =>
       linked this _other ref
         (narrowphase_protocol ctx (objects w this) (objects w _other))).
Proof.
  unfold narrowphase. cbv zeta.
  eapply scheduled_on_ext; [stages|].
  intros ref. unfold linked. rewrite merge_steps_narrowphase_protocol.
  unfold narrowphase_protocol. cbv zeta.
  destruct (decide (ref = this)) as [->|Hthis].
  { rewrite !decide_True by auto. simpl. schedule_eq. }
  destruct (decide (ref = _other)) as [->|Hother].
  { rewrite !decide_True by auto. simpl. schedule_eq. }
  rewrite !decide_False by intuition. done.
Qed.

Lemma narrowphase_extends (ctx : context) (this _other ref : object_ref) (w : world) :
  objects (narrowphase ctx this _other w) ref
  = rescheduled
      (steps (chainset (objects w ref))
       ++ linked this _other ref
            (narrowphase_protocol ctx (objects w this) (objects w _other)))
      (narrowphase_patch_messages (objects w ref))
      (objects w ref).
Proof. apply narrowphase_scheduled. Qed.

(** ** The schedule of [broadphase] *)

Lemma broadphase_unfold (flag : bool) (ctx : context) (this _other : object_ref)
    (w : world) :
  broadphase flag ctx this _other w
  = populate flag ctx this _other (after_bracket ctx this _other w)
    >>> fun w => Done (narrowphase ctx this _other w).
Proof. reflexivity. Qed.

Lemma rescheduled_rescheduled l ms l' ms' (o : impl) :
  rescheduled l' ms' (rescheduled l ms o) = rescheduled l' ms' o.
Proof. reflexivity. Qed.

Lemma extends_schedule_refl (o : impl) : extends_schedule o o [].
Proof.
  exists (narrowphase_patch_messages o). by rewrite app_nil_r, rescheduled_id.
Qed.

Lemma extends_schedule_trans (o o1 o2 : impl) (l l' : list step) :
  extends_schedule o o1 l -> extends_schedule o1 o2 l' ->
  extends_schedule o o2 (l ++ l').
Proof.
  intros [ms ->] [ms' ->]. exists ms'. simpl. by rewrite app_assoc.
Qed.

Lemma run_action_quiet (f : nat -> pending_send) (cs : CollectionChainSet) :
  (forall i, is_modification_message (f i) = false) ->
  existsb (fun p => is_modification_message p.2) (run_action f cs) = false.
Proof.
  intros Hf. unfold run_action.
  induction (indices cs) as [|i l IH]; [done|]. simpl. by rewrite Hf, IH.
Qed.

Lemma narrowphase_protocol_quiet (ctx : context) (o o' : impl) :
  Forall quiet (narrowphase_protocol ctx o o').
Proof.
  unfold narrowphase_protocol. cbv zeta.
  repeat apply Forall_cons_2; try apply Forall_nil_2;
    apply run_action_quiet; intros i; unfold at_index_0;
    try destruct (decide (i = 0)); done.
Qed.

Lemma set_active_narrow_patches_spec (ctx : context) (o : impl) :
  set_active_narrow_patches ctx o
  = rescheduled (steps (chainset o) ++ [active_population_step ctx o])
      (narrowphase_patch_messages o) o.
Proof.
  unfold set_active_narrow_patches, rescheduled, active_population_step.
  unfold on_chainset, set_chainset. simpl. f_equal.
Qed.

Lemma active_population_step_quiet (ctx : context) (o : impl) :
  quiet (active_population_step ctx o).
Proof.
  apply run_action_quiet. intros i. unfold at_index_0.
  by destruct (decide (i = 0)).
Qed.

(** The packing loop changes the message slots only. *)
Lemma prepare_messages_frame (rank : nat) (o : impl) :
  prepare_messages rank o
  = set_narrowphase_patch_messages
      (narrowphase_patch_messages (prepare_messages rank o)) o.
Proof.
  unfold prepare_messages. generalize (overdecomposition o) at 1 2. intros n.
  induction n as [|n IH]; [by destruct o|].
  rewrite seq_S, foldl_app. simpl.
  set (o1 := foldl _ o (seq 0 n)) in *.
  assert (forall ms, set_narrowphase_patch_messages ms o1
                     = set_narrowphase_patch_messages ms o) as Hset.
  { intros ms. by rewrite IH. }
  apply Hset.
Qed.

Lemma prepare_messages_length (rank : nat) (o : impl) :
  length (narrowphase_patch_messages (prepare_messages rank o))
  = length (narrowphase_patch_messages o).
Proof.
  unfold prepare_messages. generalize (overdecomposition o). intros n.
  induction n as [|n IH]; [done|].
  rewrite seq_S, foldl_app. simpl. by rewrite length_insert.
Qed.

(** After the packing loop every slot below the overdecomposition factor
    holds a message. *)
Lemma prepare_messages_lookup (rank : nat) (o : impl) (i : nat) :
  i < overdecomposition o ->
  i < length (narrowphase_patch_messages o) ->
  exists msg, narrowphase_patch_messages (prepare_messages rank o) !! i = Some (Some msg).
Proof.
  unfold prepare_messages. generalize (overdecomposition o). intros n Hi Hlen.
  induction n as [|n IH]; [lia|].
  rewrite seq_S, foldl_app. simpl.
  set (o1 := foldl _ o (seq 0 n)) in *.
  assert (length (narrowphase_patch_messages o1)
          = length (narrowphase_patch_messages o)) as Hlen1.
  { subst o1. clear. induction n as [|n IH]; [done|].
    rewrite seq_S, foldl_app. simpl. by rewrite length_insert. }
  destruct (decide (i = n)) as [->|Hne].
  - rewrite list_lookup_insert_eq by lia. eauto.
  - rewrite list_lookup_insert_ne by done. apply IH. lia.
Qed.

Lemma rescheduled_same_steps ms (o : impl) :
  rescheduled (steps (chainset o)) ms o = set_narrowphase_patch_messages ms o.
Proof. destruct o as [? ? ? [] ?]. reflexivity. Qed.

(** [set_all_narrow_patches] on an object whose patches do not match the
    overdecomposition factor stops before it schedules anything. *)
Lemma set_all_narrow_patches_stops (ctx : context) (o : impl) :
  length (local_patches o) <> overdecomposition o ->
  exists ms,
    set_all_narrow_patches ctx o
    = Stopped (assertion_failed splits_od_format [])
        (rescheduled (steps (chainset o)) ms o).
Proof.
  intros Hne. unfold set_all_narrow_patches, always_assert.
  pose proof (prepare_messages_frame (getNode ctx) o) as Hframe.
  remember (prepare_messages (getNode ctx) o) as o1 eqn:Ho1. clear Ho1.
  exists (narrowphase_patch_messages o1).
  rewrite rescheduled_same_steps, <- Hframe.
  rewrite bool_decide_eq_false_2; [done|].
  rewrite Hframe. done.
Qed.

(** Otherwise it completes and has scheduled one step, which publishes
    every patch when the object is ready. *)
Lemma set_all_narrow_patches_done (ctx : context) (o : impl) :
  length (local_patches o) = overdecomposition o ->
  exists ms st,
    set_all_narrow_patches ctx o
    = Done (rescheduled (steps (chainset o) ++ [st]) ms o) /\
    population_mode_of st = Some copy_all /\
    quiet st /\
    (patches_ready o = true -> publishes_every_patch ctx o st).
Proof.
  intros Hlen. unfold set_all_narrow_patches, always_assert.
  pose proof (prepare_messages_frame (getNode ctx) o) as Hframe.
  pose proof (prepare_messages_length (getNode ctx) o) as Hmlen.
  pose proof (prepare_messages_lookup (getNode ctx) o) as Hlookup.
  remember (prepare_messages (getNode ctx) o) as o1 eqn:Ho1. clear Ho1.
  assert (local_patches o1 = local_patches o) as Hlp by (by rewrite Hframe).
  assert (chainset o1 = chainset o) as Hcs by (by rewrite Hframe).
  assert (narrowphase_patch_collection_proxy o1
          = narrowphase_patch_collection_proxy o) as Hnp by (by rewrite Hframe).
  assert (forall ms, set_narrowphase_patch_messages ms o1
                     = set_narrowphase_patch_messages ms o) as Hset.
  { intros ms. by rewrite Hframe. }
  rewrite bool_decide_eq_true_2 by congruence.
  eexists _, _. split; [|split; [|split]].
  - rewrite Hset, !Hcs. reflexivity.
  - reflexivity.
  - apply run_action_quiet. intros i. by repeat case_match.
  - intros [[Hl Hm%bool_decide_eq_true]%andb_true_iff Hidx]%andb_true_iff.
    rewrite forallb_forall in Hidx.
    split; [done|]. split; [done|]. simpl. split.
    { unfold run_action. rewrite map_map. simpl. apply map_id. }
    intros i s [j [[= -> ->] Hin]]%list_elem_of_fmap.
    apply list_elem_of_In, Hidx, bool_decide_eq_true in Hin.
    destruct (Hlookup j) as [msg Hmsg]; [done|lia|].
    rewrite Hmsg. eexists. split; [by rewrite Hnp|].
    simpl. by rewrite Hlp.
Qed.



Lemma objects_try_object (ref ref' : object_ref) (f : impl -> outcome impl) (w : world) :
  objects (state_of (try_object ref f w)) ref'
  = if decide (ref = ref') then state_of (f (objects w ref')) else objects w ref'.
Proof.
  unfold try_object.
  destruct (decide (ref = ref')) as [<-|Hne].
  - destruct (f (objects w ref)); simpl; apply fn_lookup_insert.
  - destruct (f (objects w ref)); simpl; by apply fn_lookup_insert_ne.
Qed.

Lemma is_done_try_object (ref : object_ref) (f : impl -> outcome impl) (w : world) :
  is_done (try_object ref f w) = is_done (f (objects w ref)).
Proof. unfold try_object. by destruct (f (objects w ref)). Qed.

Lemma state_of_and_then {S : Type} (r : outcome S) (k : S -> outcome S) :
  state_of (r >>> k) = if is_done r then state_of (k (state_of r)) else state_of r.
Proof. by destruct r. Qed.

Lemma is_done_and_then {S : Type} (r : outcome S) (k : S -> outcome S) :
  is_done (r >>> k) = is_done r && is_done (k (state_of r)).
Proof. by destruct r. Qed.

(** One call of [set_active_narrow_patches] on [ref], seen from any
    object. *)
Lemma set_active_extends (ctx : context) (ref ref' : object_ref) (w : world) :
  extends_schedule (objects w ref')
    (objects (with_object ref (set_active_narrow_patches ctx) w) ref')
    (if decide (ref = ref') then [active_population_step ctx (objects w ref')] else []).
Proof.
  rewrite objects_with_object. destruct (decide (ref = ref')) as [<-|Hne].
  - rewrite set_active_narrow_patches_spec. by eexists.
  - apply extends_schedule_refl.
Qed.

(** One call of [set_all_narrow_patches] on [ref], seen from any
    object. *)
Lemma set_all_extends (ctx : context) (ref ref' : object_ref) (w : world) :
  let r := try_object ref (set_all_narrow_patches ctx) w in
  exists l,
    extends_schedule (objects w ref') (objects (state_of r) ref') l /\
    Forall (population_of_build true) l /\
    (ref <> ref' -> l = []) /\
    (is_done r = false -> l = []) /\
    (ref = ref' -> is_done r = true ->
       exists st, l = [st] /\ population_of_build true st /\
                  populates true ctx (objects w ref') st).
Proof.
  intros r. subst r. rewrite objects_try_object, is_done_try_object.
  destruct (decide (ref = ref')) as [<-|Hne].
  - destruct (decide (length (local_patches (objects w ref))
                      = overdecomposition (objects w ref))) as [Hlen|Hlen].
    + destruct (set_all_narrow_patches_done ctx _ Hlen)
        as (ms & st & -> & Hmode & Hquiet & Hpub).
      exists [st]. simpl. split; [by eexists|].
      split; [by apply Forall_singleton|]. split; [done|]. split; [done|].
      intros _ _. exists st. done.
    + destruct (set_all_narrow_patches_stops ctx _ Hlen) as (ms & ->).
      exists []. simpl. split; [exists ms; by rewrite app_nil_r|]. done.
  - exists []. split; [apply extends_schedule_refl|]. done.
Qed.

Lemma active_population_step_of_build (ctx : context) (o : impl) :
  population_of_build false (active_population_step ctx o).
Proof. split; [reflexivity|apply active_population_step_quiet]. Qed.

(** The payload population of [broadphase], seen from any object: it
    appends population steps of the mode of the build, one to each of the
    two objects when it completes, and nothing to other objects. *)
Lemma populate_extends (flag : bool) (ctx : context) (this _other ref : object_ref)
    (w : world) :
  let r := populate flag ctx this _other w in
  exists l,
    extends_schedule (objects w ref) (objects (state_of r) ref) l /\
    Forall (population_of_build flag) l /\
    (ref <> this -> ref <> _other -> l = []) /\
    (is_done r = true -> ref = this \/ ref = _other -> l <> []) /\
    (is_done r = true -> this <> _other -> ref = this \/ ref = _other ->
       exists st, l = [st] /\ populates flag ctx (objects w ref) st).
Proof.
  intros r. subst r. unfold populate. destruct flag.
  - (* copy-all *)
    set (r1 := try_object this (set_all_narrow_patches ctx) w).
    destruct (set_all_extends ctx this ref w)
      as (l1 & Hext1 & Hall1 & Hne1 & Hstop1 & Hdone1). fold r1 in Hext1, Hstop1, Hdone1.
    rewrite state_of_and_then, is_done_and_then.
    destruct (is_done r1) eqn:Hr1; simpl.
    + destruct (set_all_extends ctx _other ref (state_of r1))
        as (l2 & Hext2 & Hall2 & Hne2 & Hstop2 & Hdone2).
      exists (l1 ++ l2). split; [by eapply extends_schedule_trans|].
      split; [by apply Forall_app|]. split; [|split].
      * intros H1 H2. by rewrite Hne1, Hne2.
      * intros Hr2 [->| ->].
        -- destruct (Hdone1 eq_refl eq_refl) as (st & -> & _). done.
        -- destruct (Hdone2 eq_refl Hr2) as (st & -> & _). by destruct l1.
      * intros Hr2 Hne [->| ->].
        -- destruct (Hdone1 eq_refl eq_refl) as (st & -> & _ & Hpop).
           rewrite Hne2 by done. by exists st.
        -- destruct (Hdone2 eq_refl Hr2) as (st & -> & _ & Hpop).
           rewrite Hne1 by done. exists st. split; [done|].
           subst r1. rewrite objects_try_object, decide_False in Hpop by done. done.
    + exists l1. split; [done|]. split; [done|]. split; [|done].
      intros H1 _. apply Hne1. done.
  - (* active-only *)
    simpl.
    set (w1 := with_object this (set_active_narrow_patches ctx) w).
    pose proof (set_active_extends ctx this ref w) as Hext1. fold w1 in Hext1.
    pose proof (set_active_extends ctx _other ref w1) as Hext2.
    eexists. split; [by eapply extends_schedule_trans|].
    split; [|split; [|split]].
    + apply Forall_app; split.
      * destruct (decide (this = ref));
          [apply Forall_singleton, active_population_step_of_build
          |apply Forall_nil_2].
      * destruct (decide (_other = ref));
          [apply Forall_singleton, active_population_step_of_build
          |apply Forall_nil_2].
    + intros H1 H2. by rewrite !decide_False.
    + intros _ [->| ->].
      * rewrite decide_True by done. simpl. discriminate.
      * rewrite (decide_True (P := _other = _other)) by done.
        destruct (decide (this = _other)); simpl; discriminate.
    + intros _ Hne [->| ->].
      * rewrite decide_True, decide_False by done. by eexists.
      * rewrite decide_False, decide_True by done. eexists. split; [done|].
        unfold populates. subst w1. by rewrite objects_with_object_ne.
Qed.

(** What the bracket schedules, seen from any object. *)
Lemma after_bracket_scheduled (ctx : context) (this _other : object_ref) (w : world) :
  scheduled_on w (after_bracket ctx this _other w)
    (fun ref =>
       linked this _other ref
         (broadphase_bracket ctx (objects w this) (objects w _other))).
Proof.
  unfold after_bracket. cbv zeta.
  eapply scheduled_on_ext; [stages|].
  intros ref. unfold linked. rewrite merge_steps_broadphase_bracket.
  unfold broadphase_bracket. cbv zeta.
  destruct (decide (ref = this)) as [->|Hthis].
  { rewrite !decide_True by auto. simpl. schedule_eq. }
  destruct (decide (ref = _other)) as [->|Hother].
  { rewrite !decide_True by auto. simpl. schedule_eq. }
  rewrite !decide_False by intuition. done.
Qed.

Lemma after_bracket_extends (ctx : context) (this _other ref : object_ref) (w : world) :
  objects (after_bracket ctx this _other w) ref
  = rescheduled
      (steps (chainset (objects w ref))
       ++ linked this _other ref
            (broadphase_bracket ctx (objects w this) (objects w _other)))
      (narrowphase_patch_messages (objects w ref))
      (objects w ref).
Proof. apply after_bracket_scheduled. Qed.

Lemma narrowphase_protocol_rescheduled (ctx : context) (o o' : impl) l ms l' ms' :
  narrowphase_protocol ctx (rescheduled l ms o) (rescheduled l' ms' o')
  = narrowphase_protocol ctx o o'.
Proof. reflexivity. Qed.

Lemma populates_rescheduled (flag : bool) (ctx : context) (o : impl) l (st : step) :
  populates flag ctx (rescheduled l (narrowphase_patch_messages o) o) st
  = populates flag ctx o st.
Proof. by destruct flag. Qed.

(** What one call of [broadphase] schedules, seen from any object: its
    part of the bracket, then the population steps, then, if the call
    completes, its part of the narrowphase protocol. *)
Lemma broadphase_scheduled (flag : bool) (ctx : context) (this _other ref : object_ref)
    (w : world) :
  let r := broadphase flag ctx this _other w in
  let o := objects w this in
  let o' := objects w _other in
  exists pops post,
    extends_schedule (objects w ref) (objects (state_of r) ref)
      (linked this _other ref (broadphase_bracket ctx o o') ++ pops ++ post) /\
    Forall (population_of_build flag) pops /\
    (ref <> this -> ref <> _other -> pops = []) /\
    post = (if is_done r
            then linked this _other ref (narrowphase_protocol ctx o o')
            else []) /\
    (is_done r = true -> ref = this \/ ref = _other -> pops <> []) /\
    (is_done r = true -> this <> _other -> ref = this \/ ref = _other ->
       exists st, pops = [st] /\ populates flag ctx (objects w ref) st).
Proof.
  intros r o o'. subst r. rewrite broadphase_unfold.
  pose proof (after_bracket_extends ctx this _other) as Hbr.
  set (w3 := after_bracket ctx this _other w) in *.
  destruct (populate_extends flag ctx this _other ref w3)
    as (pops & [ms Hms] & Hall & Hthird & Hne & Hone).
  rewrite state_of_and_then, is_done_and_then.
  set (r := populate flag ctx this _other w3) in *.
  exists pops.
  exists (if is_done r then linked this _other ref (narrowphase_protocol ctx o o') else []).
  assert (forall x, objects w3 x = rescheduled
      (steps (chainset (objects w x)) ++
       linked this _other x
         (broadphase_bracket ctx (objects w this) (objects w _other)))
      (narrowphase_patch_messages (objects w x)) 
      (objects w x)) as Hw3 by (intros x; apply Hbr).
  clearbody w3. clear Hbr.
  split; [|split; [done|split; [done|split]]].
  - rewrite (Hw3 ref) in Hms. simpl in Hms.
    destruct (is_done r) eqn:Hr; cbv beta iota delta [state_of].
    + fold (state_of r). rewrite narrowphase_extends, Hms.
      destruct (populate_extends flag ctx this _other this w3) as (? & [? Hthis] & _).
      destruct (populate_extends flag ctx this _other _other w3) as (? & [? Hother] & _).
      fold r in Hthis, Hother. rewrite Hthis, Hother, !Hw3.
      rewrite !narrowphase_protocol_rescheduled.
      exists ms. unfold rescheduled. simpl. by rewrite <- !app_assoc.
    + fold (state_of r). exists ms. rewrite Hms.
      by rewrite rescheduled_rescheduled, app_nil_r, <- app_assoc.
  - simpl. by rewrite andb_true_r.
  - simpl. rewrite andb_true_r. split; [done|]. intros Hr Hneq Href.
    destruct (Hone Hr Hneq Href) as (st & -> & Hpop).
    exists st. split; [done|].
    rewrite Hw3, populates_rescheduled in Hpop. done.
Qed.

Lemma is_done_set_all_narrow_patches (ctx : context) (o : impl) :
  is_done (set_all_narrow_patches ctx o)
  = bool_decide (length (local_patches o) = overdecomposition o).
Proof.
  destruct (decide (length (local_patches o) = overdecomposition o)) as [Hlen|Hlen].
  - destruct (set_all_narrow_patches_done ctx o Hlen) as (ms & st & -> & _).
    by rewrite bool_decide_eq_true_2.
  - destruct (set_all_narrow_patches_stops ctx o Hlen) as (ms & ->).
    by rewrite bool_decide_eq_false_2.
Qed.

(** [broadphase] completes in an active-only build, and in a copy-all
    build when both objects have as many patches as their
    overdecomposition factor. *)
Lemma is_done_broadphase (flag : bool) (ctx : context) (this _other : object_ref)
    (w : world) :
  is_done (broadphase flag ctx this _other w)
  = negb flag
    || (bool_decide (length (local_patches (objects w this))
                     = overdecomposition (objects w this))
        && bool_decide (length (local_patches (objects w _other))
                        = overdecomposition (objects w _other))).
Proof.
  rewrite broadphase_unfold, is_done_and_then. simpl. rewrite andb_true_r.
  unfold populate. destruct flag; [|done]. simpl.
  rewrite is_done_and_then, !is_done_try_object, !is_done_set_all_narrow_patches.
  rewrite after_bracket_extends. simpl.
  destruct (bool_decide (length (local_patches (objects w this))
                         = overdecomposition (objects w this))) eqn:Hthis; [|done].
  simpl. rewrite objects_try_object.
  destruct (decide (this = _other)) as [<-|Hne].
  - rewrite after_bracket_extends.
    apply bool_decide_eq_true in Hthis.
    destruct (set_all_narrow_patches_done ctx
                (rescheduled
                   (steps (chainset (objects w this))
                    ++ linked this this this
                         (broadphase_bracket ctx (objects w this) (objects w this)))
                   (narrowphase_patch_messages (objects w this)) (objects w this)))
      as (ms & st & -> & _); [done|].
    simpl. by rewrite !bool_decide_eq_true_2.
  - by rewrite after_bracket_extends.
Qed.

(** ** The claims about the schedules *)


(** ** The protocol on the interaction store *)







Lemma at_index_0_sends (s : pending_send) (cs : CollectionChainSet)
    (i : nat) (s' : pending_send) :
  (i, s') ∈ run_action (at_index_0 s) cs -> s' <> null_send -> i = 0 /\ s' = s.
Proof.
  intros [j [[= -> ->] _]]%list_elem_of_fmap Hs. unfold at_index_0 in *.
  by destruct (decide (j = 0)).
Qed.

(** C8. Every call of [broadphase] appends to the chain set of the
    object first the three steps of the bracket: a collective step in
    which "begin narrowphase modification" is sent to the coordinator of
    this node, the merge step of the overlap determination, and a
    collective step in which "finish narrowphase modification" is sent;
    in these steps a modification message is sent by local index 0 only,
    the begin message in the first step and the finish message in the
    third; none of the three is a population step; every step scheduled
    after them carries no modification message, and when the call
    completes the first of them is the payload population. *)
Theorem broadphase_modification_bracket (flag : bool) (ctx : context)
    (this _other : object_ref) (w : world) :
  let r := broadphase flag ctx this _other w in
  let o := objects w this in
  let o' := objects w _other in
  let begin_msg := send_holder (objgroup o) (getNode ctx) begin_narrowphase_modification in
  let finish_msg := send_holder (objgroup o) (getNode ctx) finish_narrowphase_modification in
  exists rest,
    steps (chainset (objects (state_of r) this))
    = steps (chainset o) ++ broadphase_bracket ctx o o' ++ rest /\
    map (fun st => (step_label st, kind st)) (broadphase_bracket ctx o o')
    = [ ("start broadphase insertion", collective);
        ("broadphase_step", merge);
        ("finalize broadphase insertion", collective) ] /\
    (forall k st i s,
       broadphase_bracket ctx o o' !! k = Some st ->
       (i, s) ∈ sends st ->
       is_modification_message s = true ->
       i = 0 /\ (k = 0 /\ s = begin_msg \/ k = 2 /\ s = finish_msg)) /\
    (forall st0 st1 st2,
       broadphase_bracket ctx o o' = [st0; st1; st2] ->
       0 ∈ indices (chainset o) ->
       (0, begin_msg) ∈ sends st0 /\ (0, finish_msg) ∈ sends st2) /\
    Forall (fun st => population_mode_of st = None) (broadphase_bracket ctx o o') /\
    Forall quiet rest /\
    (is_done r = true ->
       exists st rest',
         rest = st :: rest' /\ population_mode_of st = Some (build_mode flag)).
Proof.
  intros r o o' begin_msg finish_msg.
  destruct (broadphase_scheduled flag ctx this _other this w)
    as (pops & post & [ms Hobj] & Hall & _ & Hpost & Hne & _).
  fold r o o' in Hobj, Hpost, Hne.
  unfold linked in Hobj, Hpost. rewrite decide_True in Hobj, Hpost by done.
  exists (pops ++ post). split; [by rewrite Hobj|]. split; [done|].
  split; [|split; [|split; [|split]]].
  - intros k st i s Hk Hin Hmod.
    destruct k as [|[|[|k]]]; simpl in Hk; simplify_eq/=.
    + apply at_index_0_sends in Hin as [-> ->]; [auto|by destruct s].
    + apply list_elem_of_fmap in Hin as [j [[= -> ->] _]]. done.
    + apply at_index_0_sends in Hin as [-> ->]; [auto|by destruct s].
  - intros st0 st1 st2 [= <- <- <-] H0. simpl.
    split; apply list_elem_of_fmap; exists 0; done.
  - repeat apply Forall_cons_2; try apply Forall_nil_2; reflexivity.
  - apply Forall_app. split.
    + eapply Forall_impl; [exact Hall|]. by intros st [_ ?].
    + rewrite Hpost. destruct (is_done r); [|done].
      apply narrowphase_protocol_quiet.
  - intros Hr. specialize (Hne Hr (or_introl eq_refl)).
    destruct pops as [|st pops]; [done|].
    exists st, (pops ++ post). split; [done|].
    by apply Forall_cons_1 in Hall as [[? _] _].
Qed.

Lemma elem_of_linked (this _other ref : object_ref) (l : list step) (st : step) :
  st ∈ linked this _other ref l -> st ∈ l.
Proof.
  unfold linked, merge_steps. repeat case_decide; [done| |by intros ?%elem_of_nil].
  by intros [_ ?]%list_elem_of_filter.
Qed.

Lemma scheduled_between_extends (ref : object_ref) (w w' : world) (l : list step) :
  extends_schedule (objects w ref) (objects w' ref) l ->
  scheduled_between ref w w' = l.
Proof.
  intros [ms Hobj]. unfold scheduled_between. rewrite Hobj. simpl.
  by rewrite drop_app_length.
Qed.

Lemma broadphase_bracket_no_population (ctx : context) (o o' : impl) :
  Forall (fun st => population_mode_of st = None) (broadphase_bracket ctx o o').
Proof. repeat apply Forall_cons_2; try apply Forall_nil_2; reflexivity. Qed.

Lemma narrowphase_protocol_no_population (ctx : context) (o o' : impl) :
  Forall (fun st => population_mode_of st = None) (narrowphase_protocol ctx o o').
Proof. repeat apply Forall_cons_2; try apply Forall_nil_2; reflexivity. Qed.

(** C9, as the code has it.  The population mode is fixed by the build,
    not by the object: whatever the objects and whatever they were
    constructed from, every population step that a call of [broadphase]
    schedules, on any object, is of the mode of the build, copy-all when
    [BVH_COPY_ALL_NARROWPHASE_PATCHES] is defined and active-only when it
    is not; a call that completes schedules such a step on both objects;
    and in a build without the flag every call completes. *)
Theorem population_mode_fixed_by_build (flag : bool) (ctx : context)
    (this _other : object_ref) (w : world) :
  let r := broadphase flag ctx this _other w in
  (forall ref st m,
     st ∈ scheduled_between ref w (state_of r) ->
     population_mode_of st = Some m ->
     m = build_mode flag) /\
  (is_done r = true ->
   forall ref, ref = this \/ ref = _other ->
     exists st, st ∈ scheduled_between ref w (state_of r) /\
                population_mode_of st = Some (build_mode flag)) /\
  build_mode false = active_only /\
  build_mode true = copy_all /\
  (flag = false -> is_done r = true).
Proof.
  intros r. split; [|split; [|split; [done|split; [done|]]]].
  - intros ref st m Hin Hmode.
    destruct (broadphase_scheduled flag ctx this _other ref w)
      as (pops & post & Hext & Hall & _ & Hpost & _).
    fold r in Hext, Hpost.
    rewrite (scheduled_between_extends _ _ _ _ Hext) in Hin.
    apply elem_of_app in Hin as [Hin|[Hin|Hin]%elem_of_app].
    + apply elem_of_linked in Hin.
      pose proof (broadphase_bracket_no_population ctx (objects w this)
                    (objects w _other)) as Hnone.
      rewrite Forall_forall in Hnone. rewrite (Hnone _ Hin) in Hmode. done.
    + rewrite Forall_forall in Hall. destruct (Hall _ Hin) as [Hst _]. congruence.
    + rewrite Hpost in Hin. destruct (is_done r); [|by apply elem_of_nil in Hin].
      apply elem_of_linked in Hin.
      pose proof (narrowphase_protocol_no_population ctx (objects w this)
                    (objects w _other)) as Hnone.
      rewrite Forall_forall in Hnone. rewrite (Hnone _ Hin) in Hmode. done.
  - intros Hr ref Href.
    destruct (broadphase_scheduled flag ctx this _other ref w)
      as (pops & post & Hext & Hall & _ & _ & Hne & _).
    fold r in Hext, Hne.
    rewrite (scheduled_between_extends _ _ _ _ Hext).
    specialize (Hne Hr Href). destruct pops as [|st pops]; [done|].
    exists st. split.
    { apply elem_of_app. right. apply elem_of_app. left. by apply elem_of_cons; left. }
    by apply Forall_cons_1 in Hall as [[? _] _].
  - intros ->. subst r. by rewrite is_done_broadphase.
Qed.

(** C10. A call of [broadphase] on two distinct objects completes the
    round beyond candidate determination (in a copy-all build, when both
    objects have as many patches as their overdecomposition factor): the
    chain set of the object receives, in this order, the bracket with the
    overlap merge step, the payload population of the object and the six
    steps of the narrowphase protocol; the chain set of the other object
    receives the overlap merge step, its own payload population and the
    two merge steps of the narrowphase protocol. *)
Theorem broadphase_completes_round (flag : bool) (ctx : context)
    (this _other : object_ref) (w : world) :
  this <> _other ->
  (flag = true ->
     length (local_patches (objects w this)) = overdecomposition (objects w this) /\
     length (local_patches (objects w _other)) = overdecomposition (objects w _other)) ->
  let o := objects w this in
  let o' := objects w _other in
  exists w' pop_this pop_other,
    broadphase flag ctx this _other w = Done w' /\
    steps (chainset (objects w' this))
    = steps (chainset o)
      ++ broadphase_bracket ctx o o' ++ [pop_this] ++ narrowphase_protocol ctx o o' /\
    steps (chainset (objects w' _other))
    = steps (chainset o')
      ++ merge_steps (broadphase_bracket ctx o o') ++ [pop_other]
      ++ merge_steps (narrowphase_protocol ctx o o') /\
    population_of_build flag pop_this /\ populates flag ctx o pop_this /\
    population_of_build flag pop_other /\ populates flag ctx o' pop_other.
Proof.
  intros Hne Hready o o'.
  assert (is_done (broadphase flag ctx this _other w) = true) as Hdone.
  { rewrite is_done_broadphase. destruct flag; [|done].
    destruct (Hready eq_refl) as [H1 H2]. simpl.
    by rewrite !bool_decide_eq_true_2. }
  destruct (broadphase_scheduled flag ctx this _other this w)
    as (pops & post & [ms Hobj] & Hall & _ & Hpost & _ & Hone).
  destruct (broadphase_scheduled flag ctx this _other _other w)
    as (pops' & post' & [ms' Hobj'] & Hall' & _ & Hpost' & _ & Hone').
  rewrite Hdone in Hpost, Hpost'.
  destruct (Hone Hdone Hne (or_introl eq_refl)) as (st & -> & Hpop).
  destruct (Hone' Hdone Hne (or_intror eq_refl)) as (st' & -> & Hpop').
  apply Forall_cons_1 in Hall as [Hall _].
  apply Forall_cons_1 in Hall' as [Hall' _].
  unfold linked in *.
  rewrite decide_True in Hobj, Hpost by done.
  rewrite decide_False, decide_True in Hobj', Hpost' by done.
  destruct (broadphase flag ctx this _other w) as [w'|why w'] eqn:Hrun; [|done].
  simpl in Hobj, Hobj'.
  exists w', st, st'. split; [done|].
  split; [by rewrite Hobj, Hpost|]. split; [by rewrite Hobj', Hpost'|].
  exact (conj Hall (conj Hpop (conj Hall' Hpop'))).
Qed.

(** ** Round reuse *)

(** The scheduling calls of a round leave the round containers alone. *)
Lemma round_state_broadphase (flag : bool) (ctx : context) (this _other ref : object_ref)
    (w : world) :
  round_state_empty (objects w ref) ->
  round_state_empty (objects (state_of (broadphase flag ctx this _other w)) ref).
Proof.
  intros Hw.
  destruct (broadphase_scheduled flag ctx this _other ref w)
    as (pops & post & [ms Hobj] & _).
  by rewrite Hobj.
Qed.

(** C4. [init_broadphase] clears the state of the previous round: in the
    state it leaves, whether it completes or stops, the local result
    list, the two active narrowphase index sets and the narrowphase patch
    cache of the object are empty, whatever they held on entry; in
    particular this is so when it is entered in the state that a previous
    round [init_broadphase; broadphase( other ); end_phase] left; and the
    calls of the round that follow it schedule steps without writing
    these containers, which are still empty when the round has been
    scheduled. *)
Theorem init_broadphase_clears_round_state
    (BVH_COPY_ALL_NARROWPHASE_PATCHES : bool) (ctx : context)
    (this _other : object_ref) (w : world) :
  let first := state_of (round BVH_COPY_ALL_NARROWPHASE_PATCHES ctx this _other w) in
  round_state_empty (objects (state_of (init_broadphase_on ctx this w)) this) /\
  round_state_empty (objects (state_of (init_broadphase_on ctx this first)) this) /\
  round_state_empty
    (objects (state_of (round BVH_COPY_ALL_NARROWPHASE_PATCHES ctx this _other first))
       this).
Proof.
  intros first.
  split; [|split];
    [rewrite init_broadphase_on_object; apply init_broadphase_round_state..|].
  generalize first. clear first w. intros w. unfold round.
  pose proof (init_broadphase_round_state ctx (objects w this) (rt w)) as Hinit.
  rewrite <- init_broadphase_on_object in Hinit.
  rewrite !state_of_and_then, is_done_and_then.
  destruct (is_done (init_broadphase_on ctx this w)); [|done]. simpl.
  set (w1 := state_of (init_broadphase_on ctx this w)) in *.
  pose proof (round_state_broadphase BVH_COPY_ALL_NARROWPHASE_PATCHES ctx
                this _other this w1 Hinit) as Hround.
  destruct (is_done (broadphase _ ctx this _other w1)); [|done].
  cbv beta iota delta [state_of]. by rewrite objects_with_object_eq.
Qed.

(** ** Creation of the stores *)

Lemma rt_narrowphase (ctx : context) (this _other : object_ref) (w : world) :
  rt (narrowphase ctx this _other w) = rt w.
Proof.
  unfold narrowphase, mergeStepCollective. cbv zeta.
  destruct (decide (this = _other)); reflexivity.
Qed.

Lemma rt_after_bracket (ctx : context) (this _other : object_ref) (w : world) :
  rt (after_bracket ctx this _other w) = rt w.
Proof.
  unfold after_bracket, mergeStepCollective. cbv zeta.
  destruct (decide (this = _other)); reflexivity.
Qed.

Lemma rt_try_object (ref : object_ref) (f : impl -> outcome impl) (w : world) :
  rt (state_of (try_object ref f w)) = rt w.
Proof. unfold try_object. by destruct (f (objects w ref)). Qed.

(** [broadphase] creates no collection and leaves the handles of every
    object in place. *)
Lemma broadphase_keeps_stores (flag : bool) (ctx : context) (this _other ref : object_ref)
    (w : world) :
  let w' := state_of (broadphase flag ctx this _other w) in
  rt w' = rt w /\ store_handles (objects w' ref) = store_handles (objects w ref).
Proof.
  intros w'. split.
  - subst w'. rewrite broadphase_unfold, state_of_and_then.
    assert (rt (state_of (populate flag ctx this _other
                            (after_bracket ctx this _other w))) = rt w) as Hpop.
    { unfold populate. destruct flag.
      - rewrite state_of_and_then.
        destruct (is_done _); by rewrite ?rt_try_object, rt_after_bracket.
      - simpl. apply rt_after_bracket. }
    destruct (is_done _); [|done].
    cbv beta iota delta [state_of]. by rewrite rt_narrowphase.
  - destruct (broadphase_scheduled flag ctx this _other ref w)
      as (pops & post & [ms Hobj] & _).
    subst w'. by rewrite Hobj.
Qed.

Lemma set_entity_data_impl_keeps_stores (ctx : context) (_data : Z)
    (_element_size : nat) (o : impl) :
  store_handles (state_of (set_entity_data_impl ctx _data _element_size o))
  = store_handles o.
Proof.
  unfold set_entity_data_impl, always_assert.
  repeat (destruct (bool_decide _)); reflexivity.
Qed.

(** C5. The first [init_broadphase] of an object whose store proxy is
    still invalid creates the broadphase and the narrowphase patch store,
    each with bounds the overdecomposition factor times the number of
    nodes (and the dynamic narrowphase collection), and nothing else; an
    [init_broadphase] that finds the proxy valid creates nothing and
    leaves the handles in place; either way the proxy is valid
    afterwards, so that any number of further calls leaves the same
    collections and the same handles; and the other calls of a round,
    [set_entity_data_impl], [broadphase] and [end_phase], create nothing
    and leave the handles in place: the stores are created once. *)
Theorem stores_created_lazily_once (ctx : context) (o : impl) (r : runtime) :
  let s := state_of (init_broadphase ctx (o, r)) in
  (broadphase_patch_collection_proxy o = no_vrt_proxy ->
     collections s.2
     = collections r ++ created_stores ctx (overdecomposition o) (length (collections r)) /\
     store_handles s.1
     = (proxy_id (length (collections r)),
        proxy_id (S (length (collections r))),
        proxy_id (S (S (length (collections r)))))) /\
  (broadphase_patch_collection_proxy o <> no_vrt_proxy ->
     collections s.2 = collections r /\ store_handles s.1 = store_handles o) /\
  broadphase_patch_collection_proxy s.1 <> no_vrt_proxy /\
  (forall n,
     collections (init_broadphase_times n ctx s).2 = collections s.2 /\
     store_handles (init_broadphase_times n ctx s).1 = store_handles s.1) /\
  (forall flag this _other ref w,
     let w' := state_of (broadphase flag ctx this _other w) in
     rt w' = rt w /\ store_handles (objects w' ref) = store_handles (objects w ref)) /\
  (forall _data _element_size o,
     store_handles (state_of (set_entity_data_impl ctx _data _element_size o))
     = store_handles o) /\
  (forall o, store_handles (end_phase o) = store_handles o).
Proof.
  intros s. pose proof (init_broadphase_stores ctx o r) as Hs. cbv zeta in Hs.
  fold s in Hs.
  assert (broadphase_patch_collection_proxy s.1 <> no_vrt_proxy) as Hvalid.
  { destruct (decide (broadphase_patch_collection_proxy o = no_vrt_proxy));
      destruct Hs as [_ Hh]; unfold store_handles in Hh; simplify_eq/=; congruence. }
  split; [|split; [|split; [|split; [|split; [|split]]]]].
  - intros Hinv. by rewrite decide_True in Hs.
  - intros Hval. by rewrite decide_False in Hs.
  - done.
  - intros n. by apply init_broadphase_times_stores.
  - intros. apply broadphase_keeps_stores.
  - intros. apply set_entity_data_impl_keeps_stores.
  - done.
Qed.

(** ** The ghost exchange passes *)

(** The pass over the object itself serves it. *)
Lemma ghost_pass_this_serves (ctx : context) (o o' : impl) :
  indices_registered o ->
  exists st, ghost_pass_this ctx o o' = Some st /\ ghost_pass_serves ctx o st = true.
Proof.
  intros Hidx. eexists. split; [reflexivity|].
  unfold ghost_pass_serves. apply forallb_forall. intros i Hi.
  apply bool_decide_eq_true. simpl. unfold run_action. rewrite Hidx.
  apply list_elem_of_fmap. exists i. split; [done|]. by apply list_elem_of_In.
Qed.

(** The pass over the other object runs over the indices of this object
    with the offset of this object; it serves the other object when the
    two overdecomposition factors are equal. *)
Lemma ghost_pass_other_serves (ctx : context) (o o' : impl) :
  indices_registered o ->
  overdecomposition o' = overdecomposition o ->
  exists st, ghost_pass_other ctx o o' = Some st /\ ghost_pass_serves ctx o' st = true.
Proof.
  intros Hidx Hod. eexists. split; [reflexivity|].
  unfold ghost_pass_serves. apply forallb_forall. intros i Hi.
  apply bool_decide_eq_true. simpl. unfold run_action. rewrite Hidx, Hod.
  apply list_elem_of_fmap. exists i. split; [done|].
  apply list_elem_of_In. by rewrite <- Hod.
Qed.

(** The targets that the pass over the other object addresses are the
    global ids of this object. *)
Lemma ghost_pass_other_targets (ctx : context) (o o' : impl) (st : step) :
  ghost_pass_other ctx o o' = Some st ->
  sends st
  = map (fun i => (i, call_ghost (i + getNode ctx * overdecomposition o)
                        (objgroup o') (narrowphase_patch_collection_proxy o')))
        (indices (chainset o)).
Proof. by intros [= <-]. Qed.

(** ** The constructor *)

Lemma add_indices (o : impl) (n : nat) :
  foldl (fun o i => on_chainset (addIndex i) o) o (seq 0 n)
  = set_chainset
      {| indices := indices (chainset o) ++ seq 0 n;
         steps := steps (chainset o);
         phases := phases (chainset o) |} o.
Proof.
  induction n as [|n IH].
  - simpl. rewrite app_nil_r. by destruct o as [? ? ? [] ?].
  - rewrite seq_S, foldl_app, IH. simpl.
    unfold on_chainset, addIndex, set_chainset. simpl. by rewrite <- app_assoc.
Qed.

Lemma static_cast_int_small (n : nat) :
  (Z.of_nat n < 2 ^ 31)%Z -> static_cast_int n = Z.of_nat n.
Proof.
  intros Hn. unfold static_cast_int. cbv zeta.
  rewrite Z.mod_small by lia.
  destruct (Z.ltb_spec (Z.of_nat n) (2 ^ 31)); [done|lia].
Qed.

Lemma static_cast_int_low_bits (n k : nat) :
  static_cast_int n = Z.of_nat k ->
  (Z.of_nat k = Z.of_nat n mod 2 ^ 32)%Z /\ (Z.of_nat k < 2 ^ 31)%Z.
Proof.
  unfold static_cast_int. cbv zeta.
  pose proof (Z.mod_pos_bound (Z.of_nat n) (2 ^ 32)) as Hm.
  destruct (Z.ltb_spec (Z.of_nat n mod 2 ^ 32) (2 ^ 31)); lia.
Qed.

(** X1. The constructor keeps the factor it is given cast to [int]: the
    low 32 bits of the argument, which is the argument itself below
    [2^31].  When the cast [k] is not negative the constructor registers
    the local indices [0 .. k - 1] with the chain set, in this order and
    after the indices the chain set already had, schedules nothing, and
    makes one object group, labelled with the index of the object, whose
    proxy it keeps; it creates no collection.  Two objects constructed one
    after the other hold different object groups. *)
Theorem construct_registers_indices (_world _world' : collision_world)
    (_idx _idx' _overdecomposition _overdecomposition' k k' : nat) (r : runtime) :
  static_cast_int _overdecomposition = Z.of_nat k ->
  static_cast_int _overdecomposition' = Z.of_nat k' ->
  let o0 := make_impl _world _idx in
  exists c c',
    construct _world _idx _overdecomposition r = Some c /\
    construct _world' _idx' _overdecomposition' c.2 = Some c' /\
    overdecomposition_factor c.1 = k /\
    (Z.of_nat k = Z.of_nat _overdecomposition mod 2 ^ 32)%Z /\
    ((Z.of_nat _overdecomposition < 2 ^ 31)%Z -> k = _overdecomposition) /\
    indices (chainset c.1) = indices (chainset o0) ++ seq 0 k /\
    steps (chainset c.1) = steps (chainset o0) /\
    store_handles c.1 = store_handles o0 /\
    objgroup c.1 = length (objgroups r) /\
    objgroups c.2 = objgroups r ++ ["collision_object " +:+ pretty _idx] /\
    collections c.2 = collections r /\
    objgroup c'.1 <> objgroup c.1.
Proof.
  intros Hk Hk' o0. subst o0. unfold construct, makeCollective.
  rewrite Hk, Hk'.
  destruct (Z.ltb_spec (Z.of_nat k) 0); [lia|].
  destruct (Z.ltb_spec (Z.of_nat k') 0); [lia|].
  rewrite !Nat2Z.id.
  eexists _, _. split; [reflexivity|]. split; [reflexivity|].
  rewrite !add_indices. simpl. rewrite length_app. simpl.
  split; [done|]. split; [by apply static_cast_int_low_bits|].
  split.
  { intros Hsmall. rewrite static_cast_int_small in Hk by done. lia. }
  repeat split; lia.
Qed.

(** A factor whose cast is negative gives no object. *)
Lemma construct_negative_factor (_world : collision_world)
    (_idx _overdecomposition : nat) (r : runtime) :
  (2 ^ 31 <= Z.of_nat _overdecomposition mod 2 ^ 32)%Z ->
  construct _world _idx _overdecomposition r = None.
Proof.
  intros Hn. unfold construct, static_cast_int. cbv zeta.
  pose proof (Z.mod_pos_bound (Z.of_nat _overdecomposition) (2 ^ 32)) as Hm.
  destruct (Z.ltb_spec (Z.of_nat _overdecomposition mod 2 ^ 32) (2 ^ 31)); [lia|].
  destruct (Z.ltb_spec (Z.of_nat _overdecomposition mod 2 ^ 32 - 2 ^ 32) 0); [done|lia].
Qed.

(** ** Global patch ids *)

Lemma local_index_of_global_id (k rank i : nat) :
  i < k -> (i + rank * k) / k = rank /\ (i + rank * k) mod k = i.
Proof.
  intros Hi. split.
  - rewrite Nat.div_add by lia. rewrite Nat.div_small by done. done.
  - rewrite Nat.Div0.mod_add. by apply Nat.mod_small.
Qed.

(** X2. The global ids that [set_entity_data_impl] gives to the patches,
    local index plus rank times the factor, are dense: on [n] nodes with
    the same factor [k] every id is below [k * n], different pairs of rank
    and local index get different ids, and every number below [k * n] is
    the id of a patch. *)
Theorem global_ids_dense (o o' : impl) (n : nat) :
  let k := overdecomposition o in
  (forall rank i, rank < n -> i < k ->
     exists g, global_id (entity_patch rank o i) = Some g /\ g < k * n) /\
  (overdecomposition o' = k ->
   forall rank rank' i i', i < k -> i' < k ->
     global_id (entity_patch rank o i) = global_id (entity_patch rank' o' i') ->
     rank = rank' /\ i = i') /\
  (forall g, g < k * n ->
     exists rank i, rank < n /\ i < k /\ global_id (entity_patch rank o i) = Some g).
Proof.
  intros k. subst k. split; [|split].
  - intros rank i Hrank Hi. eexists. split; [reflexivity|].
    pose proof (Nat.mul_le_mono_r (S rank) n (overdecomposition o)). lia.
  - intros Hk rank rank' i i' Hi Hi' [= Heq]. rewrite Hk in Heq.
    pose proof (local_index_of_global_id (overdecomposition o) rank i Hi) as [Hr Hl].
    pose proof (local_index_of_global_id (overdecomposition o) rank' i' Hi') as [Hr' Hl'].
    rewrite Heq in Hr, Hl. split; congruence.
  - intros g Hg.
    assert (overdecomposition o <> 0) as Hk by lia.
    exists (g / overdecomposition o), (g mod overdecomposition o).
    split; [apply Nat.Div0.div_lt_upper_bound; lia|].
    split; [by apply Nat.mod_upper_bound|].
    simpl. f_equal.
    rewrite (Nat.div_mod_eq g (overdecomposition o)) at 3. lia.
Qed.

(** ** More on [set_entity_data_impl] *)

(** The state that a completed [set_entity_data_impl] leaves. *)
Lemma set_entity_data_impl_state (ctx : context) (_data : Z) (_element_size : nat)
    (o : impl) :
  extent (splits o) + 1 = overdecomposition o ->
  set_entity_data_impl ctx _data _element_size o
  = Done
      (set_local_patches
         (map (entity_patch (getNode ctx) (set_num_splits (extent (splits o)) o))
              (seq 0 (overdecomposition o)))
         (set_entity_buffer _data _element_size
            (set_narrowphase_patch_messages
               (resize (overdecomposition o) None (narrowphase_patch_messages o))
               (set_num_splits (extent (splits o)) o)))).
Proof.
  intros Hk. unfold set_entity_data_impl, always_assert. simpl.
  rewrite bool_decide_eq_true_2 by done.
  set (ps := resize (overdecomposition o) empty_patch []).
  assert (length ps = overdecomposition o) as Hps by apply length_resize.
  rewrite foldl_insert_prefix by lia.
  rewrite drop_ge, app_nil_r by lia.
  rewrite bool_decide_eq_true_2 by (by rewrite length_map, length_seq).
  reflexivity.
Qed.

(** X3. [set_entity_data_impl] may be repeated: a second call with the
    same data on the state that a completed call left completes and
    leaves exactly that state. *)
Theorem set_entity_data_impl_idempotent (ctx : context) (_data : Z)
    (_element_size : nat) (o : impl) :
  extent (splits o) + 1 = overdecomposition o ->
  exists o',
    set_entity_data_impl ctx _data _element_size o = Done o' /\
    set_entity_data_impl ctx _data _element_size o' = Done o'.
Proof.
  intros Hk. eexists. split; [by apply set_entity_data_impl_state|].
  rewrite set_entity_data_impl_state by done. simpl.
  by rewrite resize_idemp.
Qed.


(** X5. [set_entity_data_impl] checks the number of splits, not their
    order: when a boundary lies below the one before it the call still
    completes, and the size of the span is the [std::size_t] difference,
    [2^64] more than the negative difference of the boundaries. *)
Theorem set_entity_data_impl_unordered_wraps (ctx : context) (_data : Z)
    (_element_size : nat) (plan : element_permutations) (o : impl)
    (i : nat) (a b : Z) :
  length (perm_splits plan) + 1 = overdecomposition o ->
  boundaries plan !! i = Some a ->
  boundaries plan !! S i = Some b ->
  (0 <= b < a)%Z -> (a < 2 ^ 64)%Z ->
  exists o',
    set_entity_data_impl ctx _data _element_size (initialize_split_indices plan o)
    = Done o' /\
    local_patches o' !! i
    = Some (broadphase_patch_type (i + getNode ctx * overdecomposition o)
              {| span_begin := a; span_size := (2 ^ 64 + b - a)%Z |}).
Proof.
  intros Hk Ha Hb Hba Ha64. eexists.
  split; [apply set_entity_data_impl_state; simpl; lia|]. simpl.
  assert (i < overdecomposition o) as Hi.
  { apply lookup_lt_Some in Hb. unfold boundaries in Hb. simpl in Hb.
    rewrite length_app in Hb. simpl in Hb. lia. }
  rewrite list_lookup_fmap, lookup_seq_lt by done. simpl.
  rewrite (entity_patch_boundaries _ _ _ a b); [|done|done|done].
  simpl. do 3 f_equal. unfold wrap64.
  replace (b - a)%Z with ((2 ^ 64 + b - a) + (-1) * 2 ^ 64)%Z by lia.
  rewrite Z.mod_add by lia. apply Z.mod_small. lia.
Qed.

(** A completed [set_entity_data_impl] keeps the indices and leaves a
    patch for each of them. *)
Lemma set_entity_data_impl_covers (ctx : context) (_data : Z)
    (_element_size : nat) (o : impl) :
  extent (splits o) + 1 = overdecomposition o ->
  indices_registered o ->
  exists o',
    set_entity_data_impl ctx _data _element_size o = Done o' /\
    indices_registered o' /\
    patches_cover_indices o' = true.
Proof.
  intros Hk Hidx. eexists. split; [by apply set_entity_data_impl_state|].
  unfold patches_cover_indices, indices_registered in *. simpl.
  split; [done|]. rewrite length_map, length_seq, Hidx.
  apply forallb_forall. intros i Hi%in_seq. apply bool_decide_eq_true. lia.
Qed.

(** X6. After a completed [set_entity_data_impl] an object whose chain
    set has the indices of the constructor is ready: it has one patch and
    one message slot per index, and a message that was already allocated
    is kept. *)
Theorem set_entity_data_impl_makes_ready (ctx : context) (_data : Z)
    (_element_size : nat) (o : impl) :
  extent (splits o) + 1 = overdecomposition o ->
  indices_registered o ->
  exists o',
    set_entity_data_impl ctx _data _element_size o = Done o' /\
    patches_ready o' = true /\
    indices_registered o' /\
    patches_cover_indices o' = true /\
    (forall i msg,
       i < overdecomposition o ->
       narrowphase_patch_messages o !! i = Some msg ->
       narrowphase_patch_messages o' !! i = Some msg).
Proof.
  intros Hk Hidx. eexists. split; [by apply set_entity_data_impl_state|].
  unfold patches_ready, patches_cover_indices, indices_registered in *. simpl.
  rewrite length_map, length_seq, length_resize, Hidx.
  rewrite !bool_decide_eq_true_2 by done. simpl.
  assert (forallb (fun i => bool_decide (i < overdecomposition o))
            (seq 0 (overdecomposition o)) = true) as Hall.
  { apply forallb_forall. intros i Hi%in_seq. apply bool_decide_eq_true. lia. }
  rewrite Hall. repeat split; try done.
  intros i msg Hi Hmsg. rewrite lookup_resize; [done|done|].
  by apply lookup_lt_Some in Hmsg.
Qed.

(** ** Publishing the geometry *)

(** What [init_broadphase] leaves when every index has a patch. *)
Lemma init_broadphase_done (ctx : context) (o : impl) (r : runtime) :
  patches_cover_indices o = true ->
  let p := if decide (broadphase_patch_collection_proxy o = no_vrt_proxy)
           then proxy_id (length (collections r))
           else broadphase_patch_collection_proxy o in
  exists o' r',
    init_broadphase ctx (o, r) = Done (o', r') /\
    steps (chainset o')
    = steps (chainset o)
      ++ geometry_step ctx p o :: (if build_trees o then [tree_step ctx p o] else []) /\
    broadphase_patch_collection_proxy o' = p /\
    p <> no_vrt_proxy /\
    local_patches o' = local_patches o /\
    same_construction o o'.
Proof.
  intros Hcover p. subst p. unfold patches_cover_indices in Hcover.
  unfold init_broadphase, makeCollection. simpl.
  destruct (decide (broadphase_patch_collection_proxy o = no_vrt_proxy)) as [Hp|Hp];
    simpl; rewrite Hcover; destruct (build_trees o) eqn:Htrees; simpl;
    eexists _, _; (split; [reflexivity|]); simpl; rewrite ?Htrees;
    rewrite <- ?app_assoc; by repeat split.
Qed.

(** X7. When every index of the chain set has a local patch,
    [init_broadphase] completes and schedules the publication of the
    geometry, a per-index step in which index [i] sends the patch
    [local_patches[i]], tagged with this node and [i], to the broadphase
    patch store at [i + rank * factor]; the store it addresses is the
    valid handle the object holds afterwards; the tree build is scheduled
    after it exactly when [build_trees] is set; nothing else is
    scheduled. *)
Theorem init_broadphase_publishes_geometry (ctx : context) (o : impl) (r : runtime) :
  patches_cover_indices o = true ->
  exists o' r',
    init_broadphase ctx (o, r) = Done (o', r') /\
    broadphase_patch_collection_proxy o' <> no_vrt_proxy /\
    same_construction o o' /\
    local_patches o' = local_patches o /\
    steps (chainset o')
    = steps (chainset o)
      ++ {| step_label := "broadphase_patch_step"; kind := per_index;
            sends := map (fun i =>
                            (i, send_broadphase_patch
                                  (broadphase_patch_collection_proxy o')
                                  (i + getNode ctx * overdecomposition o)
                                  {| bmsg_patch := local_patches o !!! i;
                                     bmsg_origin_node := getNode ctx;
                                     bmsg_local_idx := i |}))
                         (indices (chainset o)) |}
      :: (if build_trees o
          then [ tree_step ctx (broadphase_patch_collection_proxy o') o ]
          else []).
Proof.
  intros Hcover.
  destruct (init_broadphase_done ctx o r Hcover)
    as (o' & r' & Hrun & Hsteps & Hp & Hvalid & Hlp & Hsame).
  exists o', r'. rewrite Hp.
  split; [done|]. split; [done|]. split; [done|]. split; [done|]. exact Hsteps.
Qed.

(** X8. When some index of the chain set has no local patch, as on an
    object that was never given entity data, [init_broadphase] stops with
    the exception of [std::vector::at]: no step is scheduled, but the
    round containers have been cleared and the stores, if the object had
    none, have already been created. *)
Theorem init_broadphase_without_patches (ctx : context) (o : impl) (r : runtime) :
  patches_cover_indices o = false ->
  exists o' r',
    init_broadphase ctx (o, r) = Stopped out_of_range (o', r') /\
    chainset o' = chainset o /\
    round_state_empty o' /\
    broadphase_patch_collection_proxy o' <> no_vrt_proxy /\
    (broadphase_patch_collection_proxy o = no_vrt_proxy ->
     collections r'
     = collections r
       ++ created_stores ctx (overdecomposition o) (length (collections r))).
Proof.
  intros Hcover. unfold patches_cover_indices in Hcover.
  unfold init_broadphase, makeCollection, created_stores. simpl.
  destruct (decide (broadphase_patch_collection_proxy o = no_vrt_proxy)) as [Hp|Hp];
    simpl; rewrite Hcover; eexists _, _; (split; [reflexivity|]); simpl.
  - rewrite !length_app. simpl. rewrite !Nat.add_1_r.
    repeat split; try done. intros _. by rewrite <- !app_assoc.
  - by repeat split.
Qed.

(** X9. Geometry is published under its own id: after a completed
    [set_entity_data_impl] on an object with the indices of the
    constructor, on a node of the run, [init_broadphase] completes, and
    every message of the publication it schedules goes to the index that
    is the global id of the patch it carries, which lies within the
    bounds [factor * nodes] that the store is created with. *)
Theorem published_geometry_at_patch_id (ctx : context) (_data : Z)
    (_element_size : nat) (o : impl) (r : runtime) :
  extent (splits o) + 1 = overdecomposition o ->
  indices_registered o ->
  getNode ctx < getNumNodes ctx ->
  exists o1 o2 r2 st,
    set_entity_data_impl ctx _data _element_size o = Done o1 /\
    init_broadphase ctx (o1, r) = Done (o2, r2) /\
    steps (chainset o2) !! length (steps (chainset o1)) = Some st /\
    map fst (sends st) = seq 0 (overdecomposition o) /\
    forall i s, (i, s) ∈ sends st ->
      exists target msg,
        s = send_broadphase_patch (broadphase_patch_collection_proxy o2) target msg /\
        global_id (bmsg_patch msg) = Some target /\
        bmsg_local_idx msg = i /\
        target < overdecomposition o * getNumNodes ctx.
Proof.
  intros Hk Hidx Hnode.
  destruct (set_entity_data_impl_covers ctx _data _element_size o Hk Hidx)
    as (o1 & Hrun1 & Hidx1 & Hcover).
  pose proof (set_entity_data_impl_state ctx _data _element_size o Hk) as Hstate.
  rewrite Hrun1 in Hstate. injection Hstate as Ho1.
  destruct (init_broadphase_done ctx o1 r Hcover)
    as (o2 & r2 & Hrun2 & Hsteps & Hp & _ & _ & _).
  exists o1, o2, r2. eexists. split; [done|]. split; [done|].
  split; [|split].
  - rewrite Hsteps. rewrite lookup_app_r by lia. by rewrite Nat.sub_diag.
  - simpl. unfold run_action. rewrite map_map. simpl. rewrite map_id.
    rewrite Hidx1. by rewrite Ho1.
  - intros i s [j [[= -> ->] Hin]]%list_elem_of_fmap.
    rewrite Hidx1 in Hin. apply list_elem_of_In, in_seq in Hin.
    assert (overdecomposition o1 = overdecomposition o) as Hod by (by rewrite Ho1).
    rewrite Hod in Hin.
    eexists _, _. split; [by rewrite Hp|]. simpl.
    split; [|split; [done|]].
    + rewrite Ho1. simpl.
      rewrite (list_lookup_total_correct _ j
                 (entity_patch (getNode ctx) (set_num_splits (extent (splits o)) o) j)).
      * done.
      * rewrite list_lookup_fmap, lookup_seq_lt by lia. done.
    + rewrite Hod.
      pose proof (Nat.mul_le_mono_l (S (getNode ctx)) (getNumNodes ctx)
                    (overdecomposition o)). lia.
Qed.

(** ** Delivery of the published records *)

Lemma length_deliver {E M : Type} (decode : pending_send -> option (nat * M))
    (handler : E -> M -> E) (elems : list E) (s : pending_send) :
  length (deliver decode handler elems s) = length elems.
Proof.
  unfold deliver. destruct (decode s) as [[t m]|]; [apply length_alter|done].
Qed.

(** Sends that carry nothing for the index [t] leave the element at [t]
    alone. *)
Lemma deliver_all_other {E M : Type} (decode : pending_send -> option (nat * M))
    (handler : E -> M -> E) (ss : list pending_send) (elems : list E) (t : nat) :
  t ∉ omap (fun s => fst <$> decode s) ss ->
  foldl (deliver decode handler) elems ss !! t = elems !! t.
Proof.
  revert elems. induction ss as [|s ss IH]; intros elems Hnot; [done|].
  simpl in *. unfold deliver at 2.
  destruct (decode s) as [[t' m']|]; simpl in Hnot.
  - apply not_elem_of_cons in Hnot as [Hne Hnot].
    rewrite IH by done. by apply list_lookup_alter_ne.
  - by apply IH.
Qed.

(** When no two sends go to the same index, the element at the target
    of a message is what the handler makes of it with that message. *)
Lemma deliver_all_lookup {E M : Type} (decode : pending_send -> option (nat * M))
    (handler : E -> M -> E) (ss : list pending_send) (elems : list E)
    (s : pending_send) (t : nat) (m : M) (c : E) :
  NoDup (omap (fun s => fst <$> decode s) ss) ->
  s ∈ ss -> decode s = Some (t, m) ->
  elems !! t = Some c ->
  foldl (deliver decode handler) elems ss !! t = Some (handler c m).
Proof.
  revert elems c. induction ss as [|s' ss IH]; intros elems c Hnodup Hin Hs Hc.
  { by apply elem_of_nil in Hin. }
  simpl in *. apply elem_of_cons in Hin as [<-|Hin].
  - rewrite Hs in Hnodup. simpl in Hnodup. apply NoDup_cons in Hnodup as [Hnot _].
    rewrite deliver_all_other by done.
    unfold deliver. rewrite Hs. by rewrite list_lookup_alter_eq, Hc.
  - assert (t ∈ omap (fun s => fst <$> decode s) ss) as Ht.
    { apply list_elem_of_omap. exists s. by rewrite Hs. }
    unfold deliver at 2. destruct (decode s') as [[t' m']|] eqn:Hs'; simpl in Hnodup.
    + apply NoDup_cons in Hnodup as [Hnot Hnodup].
      apply (IH _ c); [done|done|done|].
      rewrite list_lookup_alter_ne; [done|]. intros ->. done.
    + by apply (IH _ c).
Qed.

Lemma release_is_deliver (p : vrt_proxy)
    (elems : list narrowphase_patch_collection_type) (s : pending_send) :
  release p elems s
  = deliver (payload_addressed_to p) details.set_narrowphase_patches elems s.
Proof.
  unfold release, deliver. destruct s; simpl; try done. by case_decide.
Qed.

(** The targets of a step in which every index [i] sends to
    [i + offset] are different when the indices are. *)
Lemma NoDup_targets {M : Type} (decode : pending_send -> option (nat * M))
    (f : nat -> pending_send) (offset : nat) (l : list nat) :
  NoDup l ->
  (forall i, i ∈ l -> exists m, decode (f i) = Some (i + offset, m)) ->
  NoDup (omap (fun s => fst <$> decode s) (map f l)).
Proof.
  intros Hl Hf. induction Hl as [|i l Hnot Hl IH]; [constructor|].
  simpl. destruct (Hf i) as [m Hm]; [by left|]. rewrite Hm. simpl.
  apply NoDup_cons. split.
  - intros [s [Hin Hs]]%list_elem_of_omap.
    apply list_elem_of_fmap in Hin as [j [-> Hj]].
    destruct (Hf j) as [m' Hm']; [by right|]. rewrite Hm' in Hs.
    simpl in Hs. assert (j = i) as -> by (injection Hs; lia). done.
  - apply IH. intros j Hj. apply Hf. by right.
Qed.

(** X10. Publish and look up the geometry: when every index has a patch
    and the indices are distinct, releasing the publication that
    [init_broadphase] schedules into the broadphase patch store leaves, at
    [i + rank * factor] for every index [i], exactly the patch
    [local_patches[i]] with this node as origin and [i] as local index,
    whatever the element held before. *)
Theorem published_geometry_is_stored (ctx : context) (o : impl) (r : runtime)
    (elems : list broadphase_patch_collection_type) :
  patches_cover_indices o = true ->
  NoDup (indices (chainset o)) ->
  exists o' r' st,
    init_broadphase ctx (o, r) = Done (o', r') /\
    steps (chainset o') !! length (steps (chainset o)) = Some st /\
    forall i,
      i ∈ indices (chainset o) ->
      i + getNode ctx * overdecomposition o < length elems ->
      release_geometry (broadphase_patch_collection_proxy o') elems
        (map snd (sends st)) !! (i + getNode ctx * overdecomposition o)
      = Some {| bcoll_patch := local_patches o !!! i;
                bcoll_origin_node := getNode ctx;
                bcoll_local_idx := i |}.
Proof.
  intros Hcover Hnodup.
  destruct (init_broadphase_done ctx o r Hcover)
    as (o' & r' & Hrun & Hsteps & Hp & _ & _ & _).
  exists o', r'. eexists. split; [done|]. split.
  { rewrite Hsteps, lookup_app_r by lia. by rewrite Nat.sub_diag. }
  intros i Hi Hlen. rewrite Hp.
  set (p := if decide _ then _ else _).
  destruct (lookup_lt_is_Some_2 elems _ Hlen) as [c Hc].
  unfold release_geometry. simpl. unfold run_action. rewrite map_map. simpl.
  set (f := fun i => send_broadphase_patch p (i + getNode ctx * overdecomposition o)
                       {| bmsg_patch := local_patches o !!! i;
                          bmsg_origin_node := getNode ctx;
                          bmsg_local_idx := i |}).
  assert (forall j, geometry_addressed_to p (f j)
                    = Some (j + getNode ctx * overdecomposition o,
                            {| bmsg_patch := local_patches o !!! j;
                               bmsg_origin_node := getNode ctx;
                               bmsg_local_idx := j |})) as Hf.
  { intros j. simpl. by rewrite decide_True. }
  rewrite (deliver_all_lookup _ _ _ _ (f i) _ _ c
             (NoDup_targets _ f _ _ Hnodup (fun j _ => ex_intro _ _ (Hf j)))
             (list_elem_of_fmap_2 f _ _ Hi) (Hf i) Hc).
  done.
Qed.

(** ** Publishing the payloads *)

Lemma release_all_is_deliver (p : vrt_proxy) (ss : list pending_send)
    (elems : list narrowphase_patch_collection_type) :
  release_all p elems ss
  = foldl (deliver (payload_addressed_to p) details.set_narrowphase_patches) elems ss.
Proof.
  unfold release_all. revert elems.
  induction ss as [|s ss IH]; intros elems; [done|].
  simpl. by rewrite IH, release_is_deliver.
Qed.

(** Stamping the slots of other indices leaves the slot [i] alone. *)
Lemma stamp_all_other (f : nat -> narrowphase_patch_msg -> narrowphase_patch_msg)
    (l : list nat) (ms : list (option narrowphase_patch_msg)) (i : nat) :
  i ∉ l ->
  foldl (fun ms i => alter (fmap (f i)) i ms) ms l !! i = ms !! i.
Proof.
  revert ms. induction l as [|j l IH]; intros ms Hnot; [done|].
  apply not_elem_of_cons in Hnot as [Hne Hnot]. simpl.
  rewrite IH by done. by apply list_lookup_alter_ne.
Qed.

Lemma stamp_all_lookup (f : nat -> narrowphase_patch_msg -> narrowphase_patch_msg)
    (l : list nat) (ms : list (option narrowphase_patch_msg)) (i : nat)
    (m : narrowphase_patch_msg) :
  NoDup l -> i ∈ l -> ms !! i = Some (Some m) ->
  foldl (fun ms i => alter (fmap (f i)) i ms) ms l !! i = Some (Some (f i m)).
Proof.
  intros Hl. revert ms. induction Hl as [|j l Hnot Hl IH]; intros ms Hin Hm.
  { by apply elem_of_nil in Hin. }
  simpl. destruct (decide (i = j)) as [->|Hne].
  - rewrite stamp_all_other by done. by rewrite list_lookup_alter_eq, Hm.
  - apply elem_of_cons in Hin as [?|Hin]; [done|].
    apply IH; [done|]. by rewrite list_lookup_alter_ne.
Qed.

(** The state that a completed [set_all_narrow_patches] leaves. *)
Lemma set_all_narrow_patches_state (ctx : context) (o : impl) :
  length (local_patches o) = overdecomposition o ->
  let ms1 := narrowphase_patch_messages (prepare_messages (getNode ctx) o) in
  set_all_narrow_patches ctx o
  = Done
      (rescheduled
         (steps (chainset o)
          ++ [ {| step_label := "narrowphase_patch_step"; kind := per_index;
                  sends := run_action
                             (fun i =>
                                match ms1 !! i with
                                | Some (Some msg) =>
                                    send_narrowphase_patch
                                      (narrowphase_patch_collection_proxy o)
                                      (i + getNode ctx * overdecomposition o)
                                      (stamp_message ctx o i msg)
                                | _ => null_send
                                end)
                             (chainset o) |} ])
         (foldl (fun ms i => alter (fmap (stamp_message ctx o i)) i ms) ms1
                (indices (chainset o)))
         o).
Proof.
  intros Hlen ms1. subst ms1. unfold set_all_narrow_patches, always_assert.
  pose proof (prepare_messages_frame (getNode ctx) o) as Hframe.
  remember (prepare_messages (getNode ctx) o) as o1 eqn:Ho1. clear Ho1.
  assert (local_patches o1 = local_patches o) as Hlp by (by rewrite Hframe).
  rewrite bool_decide_eq_true_2 by congruence.
  rewrite Hframe. reflexivity.
Qed.

(** X11. Publish and look up the payloads: on an object that is ready and
    whose indices are distinct, [set_all_narrow_patches] completes and
    schedules one step; the message of every index [i] carries the patch
    [local_patches[i]] and this node, it is the message the object keeps
    in slot [i], and when the sends of the step are released into the
    narrowphase patch store the record at [i + rank * factor] is what
    [details::set_narrowphase_patches] makes of it with that message. *)
Theorem published_payloads_are_stored (ctx : context) (o : impl)
    (elems : list narrowphase_patch_collection_type) :
  patches_ready o = true ->
  NoDup (indices (chainset o)) ->
  exists o' st,
    set_all_narrow_patches ctx o = Done o' /\
    steps (chainset o') = steps (chainset o) ++ [st] /\
    forall i c,
      i ∈ indices (chainset o) ->
      elems !! (i + getNode ctx * overdecomposition o) = Some c ->
      exists msg,
        narrowphase_patch_messages o' !! i = Some (Some msg) /\
        patch_meta msg = local_patches o !!! i /\
        origin_node msg = getNode ctx /\
        release_all (narrowphase_patch_collection_proxy o) elems (map snd (sends st))
          !! (i + getNode ctx * overdecomposition o)
        = Some (details.set_narrowphase_patches c msg).
Proof.
  intros [[Hl Hm%bool_decide_eq_true]%andb_true_iff Hidx]%andb_true_iff Hnodup.
  apply bool_decide_eq_true in Hl. rewrite forallb_forall in Hidx.
  rewrite (set_all_narrow_patches_state ctx o Hl). cbv zeta.
  pose proof (prepare_messages_lookup (getNode ctx) o) as Hlookup.
  set (ms1 := narrowphase_patch_messages (prepare_messages (getNode ctx) o)) in *.
  eexists _, _. split; [reflexivity|]. split; [reflexivity|].
  intros i c Hi Hc.
  assert (forall j, j ∈ indices (chainset o) ->
            exists m, ms1 !! j = Some (Some m)) as Hslot.
  { intros j Hj. apply list_elem_of_In, Hidx, bool_decide_eq_true in Hj.
    apply Hlookup; lia. }
  destruct (Hslot i Hi) as [m Hmi].
  exists (stamp_message ctx o i m).
  split; [by apply stamp_all_lookup|]. split; [done|]. split; [done|].
  rewrite release_all_is_deliver. simpl. unfold run_action. rewrite map_map. simpl.
  set (p := narrowphase_patch_collection_proxy o).
  set (f := fun j => match ms1 !! j with
                     | Some (Some msg) =>
                         send_narrowphase_patch p
                           (j + getNode ctx * overdecomposition o)
                           (stamp_message ctx o j msg)
                     | _ => null_send
                     end).
  assert (forall j m, ms1 !! j = Some (Some m) ->
            payload_addressed_to p (f j)
            = Some (j + getNode ctx * overdecomposition o, stamp_message ctx o j m))
    as Hf.
  { intros j m' Hj. subst f. simpl. rewrite Hj. simpl. by rewrite decide_True. }
  apply (deliver_all_lookup _ _ _ _ (f i) _ _ c); [|by apply list_elem_of_fmap_2| |done].
  - apply (NoDup_targets _ f (getNode ctx * overdecomposition o)); [done|].
    intros j Hj. destruct (Hslot j Hj) as [m' Hm']. eexists. by apply Hf.
  - by apply Hf.
Qed.

(** ** When the pass over the other object serves it *)

(** X13. The ghost exchange pass over the other object, which runs over
    the indices of this object with the offset of this object, serves the
    other object exactly when the other object has no patch, or the two
    factors are equal, or the node is node 0 and the factor of the other
    object is the smaller. *)
Theorem ghost_pass_other_serves_iff (ctx : context) (o o' : impl) (st : step) :
  indices_registered o ->
  ghost_pass_other ctx o o' = Some st ->
  ghost_pass_serves ctx o' st = true
  <-> overdecomposition o' = 0
      \/ overdecomposition o' = overdecomposition o
      \/ (getNode ctx = 0 /\ overdecomposition o' < overdecomposition o).
Proof.
  intros Hidx Hst. unfold ghost_pass_serves.
  rewrite (ghost_pass_other_targets ctx o o' st Hst), Hidx.
  rewrite forallb_forall. split.
  - intros Hall.
    destruct (decide (overdecomposition o' = 0)) as [|Hpos]; [by left|right].
    assert (In (overdecomposition o' - 1) (seq 0 (overdecomposition o'))) as Hlast
      by (apply in_seq; lia).
    apply Hall, bool_decide_eq_true, list_elem_of_fmap in Hlast
      as [j [[= Hj Ht] Hin]].
    apply list_elem_of_In, in_seq in Hin.
    assert (getNode ctx * overdecomposition o' = getNode ctx * overdecomposition o)
      as Hoff by lia.
    destruct (decide (getNode ctx = 0)) as [Hz|Hnz].
    + destruct (decide (overdecomposition o' = overdecomposition o)); [by left|].
      right. split; [done|lia].
    + left. by apply Nat.mul_cancel_l in Hoff.
  - intros Hcase i Hi%in_seq. apply bool_decide_eq_true.
    apply list_elem_of_fmap. exists i.
    destruct Hcase as [Hz|[Heq|[Hz Hlt]]].
    + lia.
    + rewrite Heq. split; [done|]. apply list_elem_of_In, in_seq. lia.
    + rewrite Hz. simpl. split; [done|]. apply list_elem_of_In, in_seq. lia.
Qed.

(** ** What no sequence of calls undoes *)

Lemma evolves_refl (o : impl) : evolves o o.
Proof. split; [by repeat split|]. split; [reflexivity|done]. Qed.

Lemma evolves_trans (o1 o2 o3 : impl) : evolves o1 o2 -> evolves o2 o3 -> evolves o1 o3.
Proof.
  intros (Hc & Hh & Hs) (Hc' & Hh' & Hs'). split; [|split].
  - unfold same_construction, overdecomposition_factor in *.
    destruct Hc as (? & ? & ? & ? & ?), Hc' as (? & ? & ? & ? & ?).
    repeat split; congruence.
  - by etrans.
  - intros Hvalid. specialize (Hs Hvalid).
    rewrite <- Hs. apply Hs'. unfold store_handles in Hs. congruence.
Qed.

Lemma extends_schedule_evolves (o o' : impl) (l : list step) :
  extends_schedule o o' l -> evolves o o'.
Proof.
  intros [ms ->]. split; [by repeat split|]. split; [|done].
  unfold history. simpl. by apply prefix_app, prefix_app_r.
Qed.

Lemma set_entity_data_impl_evolves (ctx : context) (_data : Z) (_element_size : nat)
    (o : impl) :
  evolves o (state_of (set_entity_data_impl ctx _data _element_size o)).
Proof.
  unfold set_entity_data_impl, always_assert.
  repeat (destruct (bool_decide _));
    (split; [by repeat split|]; split; [reflexivity|done]).
Qed.

Lemma init_broadphase_evolves (ctx : context) (o : impl) (r : runtime) :
  let s := state_of (init_broadphase ctx (o, r)) in
  evolves o s.1 /\
  objgroups s.2 = objgroups r /\
  collections r `prefix_of` collections s.2.
Proof.
  unfold init_broadphase, makeCollection, evolves, history. simpl.
  destruct (decide (broadphase_patch_collection_proxy o = no_vrt_proxy)) as [Hp|Hp];
    simpl;
    (destruct (forallb _ _); [destruct (build_trees o) eqn:Htrees|]); simpl;
    rewrite ?Htrees, <- ?app_assoc;
    (split; [split; [by repeat split|]; split; [|done]|split; [done|]]);
    try reflexivity;
    try (by apply prefix_app_r);
    by apply prefix_app, prefix_app_r.
Qed.

Lemma end_phase_evolves (o : impl) : evolves o (end_phase o).
Proof.
  split; [by repeat split|]. split; [|done].
  unfold history, end_phase, on_chainset, phaseDone. simpl.
  by rewrite concat_app, app_nil_r; simpl; rewrite app_nil_r.
Qed.

Lemma objects_init_broadphase_on (ctx : context) (this ref : object_ref) (w : world) :
  objects (state_of (init_broadphase_on ctx this w)) ref
  = if decide (this = ref)
    then (state_of (init_broadphase ctx (objects w this, rt w))).1
    else objects w ref.
Proof.
  unfold init_broadphase_on.
  destruct (init_broadphase ctx (objects w this, rt w)) as [[o r]|why [o r]]; simpl;
    (destruct (decide (this = ref)) as [<-|Hne];
       [apply fn_lookup_insert|by apply fn_lookup_insert_ne]).
Qed.

Lemma rt_init_broadphase_on (ctx : context) (this : object_ref) (w : world) :
  rt (state_of (init_broadphase_on ctx this w))
  = (state_of (init_broadphase ctx (objects w this, rt w))).2.
Proof.
  unfold init_broadphase_on.
  by destruct (init_broadphase ctx (objects w this, rt w)) as [[o r]|why [o r]].
Qed.

(** One call, seen from any object and from the runtime. *)
Lemma invoke_evolves (flag : bool) (ctx : context) (this : object_ref) (m : method)
    (w : world) :
  let w' := state_of (invoke flag ctx this m w) in
  (forall ref, evolves (objects w ref) (objects w' ref)) /\
  objgroups (rt w') = objgroups (rt w) /\
  collections (rt w) `prefix_of` collections (rt w').
Proof.
  destruct m; cbv zeta; unfold invoke.
  - split; [|done]. intros ref. cbv beta iota delta [state_of].
    rewrite objects_with_object. destruct (decide (this = ref)) as [<-|].
    + split; [by repeat split|]. split; [reflexivity|done].
    + apply evolves_refl.
  - rewrite rt_try_object. split; [|done]. intros ref.
    rewrite objects_try_object. destruct (decide (this = ref)) as [<-|].
    + apply set_entity_data_impl_evolves.
    + apply evolves_refl.
  - rewrite rt_init_broadphase_on.
    destruct (init_broadphase_evolves ctx (objects w this) (rt w)) as (He & Hg & Hc).
    split; [|done]. intros ref. rewrite objects_init_broadphase_on.
    destruct (decide (this = ref)) as [<-|]; [done|apply evolves_refl].
  - destruct (broadphase_keeps_stores flag ctx this _other this w) as [-> _].
    split; [|done]. intros ref.
    destruct (broadphase_scheduled flag ctx this _other ref w)
      as (pops & post & Hext & _).
    by eapply extends_schedule_evolves.
  - cbv beta iota delta [state_of]. rewrite rt_narrowphase. split; [|done].
    intros ref. eapply extends_schedule_evolves. eexists.
    apply narrowphase_extends.
  - rewrite rt_try_object. split; [|done]. intros ref.
    destruct (set_all_extends ctx this ref w) as (l & Hext & _).
    by eapply extends_schedule_evolves.
  - split; [|done]. intros ref. cbv beta iota delta [state_of].
    eapply extends_schedule_evolves. apply set_active_extends.
  - split; [|done]. intros ref. cbv beta iota delta [state_of].
    rewrite objects_with_object. destruct (decide (this = ref)) as [<-|].
    + apply end_phase_evolves.
    + apply evolves_refl.
Qed.

(** X15. Whatever methods are called, on whatever objects and in whatever
    order, and whether or not a call stops the process, every object
    keeps its construction (factor, index, object group, tree flag and
    registered indices), every step scheduled so far stays in its place
    in the history of its chain set, an object that had its stores keeps
    the same three handles, no object group is made and no collection is
    removed. *)
Theorem calls_evolve_objects (flag : bool) (ctx : context)
    (calls : list (object_ref * method)) (w : world) :
  let w' := state_of (run flag ctx calls w) in
  (forall ref, evolves (objects w ref) (objects w' ref)) /\
  objgroups (rt w') = objgroups (rt w) /\
  collections (rt w) `prefix_of` collections (rt w').
Proof.
  revert w. induction calls as [|[this m] calls IH]; intros w; cbv zeta.
  { simpl. split; [intros ref; apply evolves_refl|done]. }
  change (run flag ctx ((this, m) :: calls) w)
    with (invoke flag ctx this m w >>> run flag ctx calls).
  rewrite state_of_and_then.
  pose proof (invoke_evolves flag ctx this m w) as (He & Hg & Hc).
  destruct (is_done (invoke flag ctx this m w)); [|done].
  destruct (IH (state_of (invoke flag ctx this m w))) as (He' & Hg' & Hc').
  split; [|split].
  - intros ref. by eapply evolves_trans.
  - by rewrite Hg'.
  - by etrans.
Qed.

(** ** Objects that no call names *)

Lemma populate_frame (flag : bool) (ctx : context) (this _other ref : object_ref)
    (w : world) :
  this <> ref -> _other <> ref ->
  objects (state_of (populate flag ctx this _other w)) ref = objects w ref.
Proof.
  intros H1 H2. unfold populate. destruct flag.
  - rewrite state_of_and_then.
    destruct (is_done _); by rewrite !objects_try_object, !decide_False.
  - cbv beta iota zeta delta [state_of]. by rewrite !objects_with_object_ne.
Qed.

Lemma invoke_frame (flag : bool) (ctx : context) (this ref : object_ref) (m : method)
    (w : world) :
  names ref (this, m) = false ->
  objects (state_of (invoke flag ctx this m w)) ref = objects w ref.
Proof.
  unfold names. simpl. intros [Hthis%bool_decide_eq_false Hm]%orb_false_iff.
  destruct m; unfold invoke.
  - cbv beta iota delta [state_of]. by rewrite objects_with_object_ne.
  - by rewrite objects_try_object, decide_False.
  - by rewrite objects_init_broadphase_on, decide_False.
  - apply bool_decide_eq_false in Hm.
    rewrite broadphase_unfold, state_of_and_then.
    destruct (is_done _); cbv beta iota delta [state_of].
    + fold (state_of (populate flag ctx this _other (after_bracket ctx this _other w))).
      rewrite narrowphase_extends, populate_frame, after_bracket_extends by done.
      unfold linked. rewrite !decide_False by done.
      by rewrite !app_nil_r, !rescheduled_id.
    + fold (state_of (populate flag ctx this _other (after_bracket ctx this _other w))).
      rewrite populate_frame, after_bracket_extends by done.
      unfold linked. rewrite !decide_False by done.
      by rewrite !app_nil_r, !rescheduled_id.
  - apply bool_decide_eq_false in Hm. cbv beta iota delta [state_of].
    rewrite narrowphase_extends. unfold linked. rewrite !decide_False by done.
    by rewrite !app_nil_r, !rescheduled_id.
  - by rewrite objects_try_object, decide_False.
  - cbv beta iota delta [state_of]. by rewrite objects_with_object_ne.
  - cbv beta iota delta [state_of]. by rewrite objects_with_object_ne.
Qed.

(** X16. A sequence of calls changes only the objects it names: an object
    on which no call is made and which no call passes as the other
    object is, after the calls, exactly as it was. *)
Theorem calls_leave_unnamed_objects (flag : bool) (ctx : context)
    (calls : list (object_ref * method)) (ref : object_ref) (w : world) :
  forallb (fun call => negb (names ref call)) calls = true ->
  objects (state_of (run flag ctx calls w)) ref = objects w ref.
Proof.
  revert w. induction calls as [|[this m] calls IH]; intros w Hcalls; [done|].
  simpl in Hcalls. apply andb_true_iff in Hcalls as [Hcall%negb_true_iff Hcalls].
  change (run flag ctx ((this, m) :: calls) w)
    with (invoke flag ctx this m w >>> run flag ctx calls).
  rewrite state_of_and_then.
  destruct (is_done (invoke flag ctx this m w)).
  - rewrite IH by done. by apply invoke_frame.
  - by apply invoke_frame.
Qed.

End collision_object.

(** ** A run on one node

    Object A has two local patches, with 3 and 5 entities
    (overdecomposition 2, one split boundary at offset 3); object B has
    one local patch with 4 entities (overdecomposition 1, no split). *)

(** An [impl] before the constructor of the collision object fills it
    in: nothing scheduled, no patches, invalid proxies. *)
Definition blank_impl (_world : unit) (_idx : nat) : @impl unit unit :=
  {| collision_idx := _idx; overdecomposition := 1; build_trees := true;
     chainset := empty_chainset; objgroup := 0;
     splits := {| extent := 0 |}; split_indices := {| extent := 0 |};
     splits_h := []; split_indices_h := []; num_splits := 0;
     local_patches := []; narrowphase_patch_messages := [];
     m_entity_ptr := 0; m_entity_unit_size := 0;
     local_results := []; active_narrowphase_indices := [];
     active_narrowphase_local_index := []; narrowphase_patch_cache := [];
     broadphase_patch_collection_proxy := no_vrt_proxy;
     narrowphase_patch_collection_proxy := no_vrt_proxy;
     narrowphase_collection_proxy := no_vrt_proxy |}.

(** A packing that sends two payload bytes per patch. *)
Definition two_bytes (o : @impl unit unit) (i rank : nat) : narrowphase_patch_msg :=
  {| patch_meta := empty_patch; data_size := 2;
     user_data := [Byte.x01; Byte.x02]; origin_node := 0 |}.

Definition node0 : context := {| getNode := 0; getNumNodes := 1 |}.

Definition plan_A : element_permutations :=
  {| perm_indices := [0; 1; 2; 3; 4; 5; 6; 7]%Z; perm_splits := [3%Z] |}.

Definition plan_B : element_permutations :=
  {| perm_indices := [0; 1; 2; 3]%Z; perm_splits := [] |}.

Definition A : object_ref := 0.
Definition B : object_ref := 1.

(** Both objects constructed, given their entity data and taken through
    [init_broadphase]. *)
Definition example_world : @world unit unit :=
  let '(a, r) := default (blank_impl tt 0, empty_runtime)
                     (construct blank_impl tt 0 2 empty_runtime) in
  let '(b, r) := default (blank_impl tt 1, r) (construct blank_impl tt 1 1 r) in
  let a := state_of (set_entity_data_impl node0 0 16 (initialize_split_indices plan_A a)) in
  let b := state_of (set_entity_data_impl node0 0 16 (initialize_split_indices plan_B b)) in
  let w := {| objects := fun ref => if decide (ref = A) then a else b; rt := r |} in
  let w := state_of (init_broadphase_on node0 A w) in
  state_of (init_broadphase_on node0 B w).

(** Object A as constructed, before it has entity data. *)
Definition fresh_A : @impl unit unit :=
  (default (blank_impl tt 0, empty_runtime)
     (construct blank_impl tt 0 2 empty_runtime)).1.

(** A plan for three patches whose second boundary lies below the first. *)
Definition plan_unordered : element_permutations :=
  {| perm_indices := [0; 1; 2; 3; 4; 5; 6; 7]%Z; perm_splits := [5%Z; 3%Z] |}.

(** A record of a broadphase patch store that still holds a patch of
    another node. *)
Definition stale_geometry : broadphase_patch_collection_type :=
  {| bcoll_patch := broadphase_patch_type 9 {| span_begin := 0; span_size := 1 |};
     bcoll_origin_node := 7; bcoll_local_idx := 4 |}.

(** A record of a narrowphase patch store with a pending destination. *)
Definition stale_payload : narrowphase_patch_collection_type :=
  {| ncoll_patch_meta := empty_patch;
     ncoll_bytes := [Byte.xff; Byte.xff; Byte.xff];
     ncoll_origin_node := 7; ghost_destinations := [4] |}.


Example example_world_patches :
  local_patches (objects example_world A)
  = [ broadphase_patch_type 0 {| span_begin := 0; span_size := 3 |};
      broadphase_patch_type 1 {| span_begin := 3; span_size := 5 |} ] /\
  local_patches (objects example_world B)
  = [ broadphase_patch_type 0 {| span_begin := 0; span_size := 4 |} ] /\
  store_handles (objects example_world A) = (proxy_id 0, proxy_id 1, proxy_id 2) /\
  store_handles (objects example_world B) = (proxy_id 3, proxy_id 4, proxy_id 5) /\
  map coll_shape (collections (rt example_world))
  = [ bounds 2; bounds 2; dynamic_membership; bounds 1; bounds 1; dynamic_membership ].
Proof. vm_compute. done. Qed.

(** C3.  [B.narrowphase( A )] with B of overdecomposition 1 and A of
    overdecomposition 2: the pass over the other object, A, is scheduled on
    the chain set of B, runs over the one local index of B and addresses
    only the global id 0 of the narrowphase patch store of A; the local
    patch 1 of A is not addressed, so the pass does not serve A.  The
    pass over B itself serves B. *)
Theorem ghost_other_pass_skips_patch :
  overdecomposition (objects example_world B) = 1 /\
  overdecomposition (objects example_world A) = 2 /\
  scheduled_between B example_world (narrowphase node0 B A example_world) !! 3
  = Some {| step_label := "ghost_other"; kind := collective;
            sends := [ (0, call_ghost 0 0 (proxy_id 1)) ] |} /\
  ghost_pass_other node0 (objects example_world B) (objects example_world A)
  = Some {| step_label := "ghost_other"; kind := collective;
            sends := [ (0, call_ghost 0 0 (proxy_id 1)) ] |} /\
  ghost_pass_serves node0 (objects example_world A)
    {| step_label := "ghost_other"; kind := collective;
       sends := [ (0, call_ghost 0 0 (proxy_id 1)) ] |} = false /\
  (exists st,
     ghost_pass_this node0 (objects example_world B) (objects example_world A) = Some st /\
     ghost_pass_serves node0 (objects example_world B) st = true).
Proof.
  split; [done|]. split; [done|]. split; [by vm_compute|].
  split; [by vm_compute|]. split; [by vm_compute|].
  eexists. split; [reflexivity|]. by vm_compute.
Qed.


(** C9, as stated, fails: no value held by the object, and so nothing
    consumed at its construction, selects the population mode.  The same
    object B, in the same world, is populated copy-all by a build with
    [BVH_COPY_ALL_NARROWPHASE_PATCHES] and active-only by a build
    without. *)
Lemma population_mode_not_selected_by_object :
  ~ exists select : @impl unit unit -> population_mode,
      forall flag : bool,
        omap population_mode_of
          (scheduled_between B example_world
             (state_of (broadphase two_bytes flag node0 B A example_world)))
        = [select (objects example_world B)].
Proof.
  intros [select Hselect].
  pose proof (Hselect true) as Htrue. pose proof (Hselect false) as Hfalse.
  vm_compute in Htrue, Hfalse. congruence.
Qed.

(** C1 at the plan of object A: two patches, [0, 3) and [3, 8). *)
Lemma set_entity_data_partitions_witness :
  exists o',
    set_entity_data_impl node0 0 16
      (initialize_split_indices plan_A (set_overdecomposition 2 (blank_impl tt 0)))
    = Done o' /\
    length (local_patches o') = 2 /\
    concat (map patch_indices (local_patches o')) = seqZ 0 8.
Proof.
  destruct (set_entity_data_partitions node0 0 16 plan_A
              (set_overdecomposition 2 (blank_impl tt 0)) 2)
    as (o' & Hrun & Hlen & _ & Hcover); [reflexivity|reflexivity|reflexivity|].
  exists o'. split; [exact Hrun|]. split; [exact Hlen|exact Hcover].
Defined.

(** C7 at a record that still holds three bytes and a pending
    destination. *)
Lemma set_narrowphase_patches_installs_witness :
  let c' := details.set_narrowphase_patches
              {| ncoll_patch_meta := empty_patch;
                 ncoll_bytes := [Byte.xff; Byte.xff; Byte.xff];
                 ncoll_origin_node := 7; ghost_destinations := [4] |}
              (two_bytes (blank_impl tt 0) 0 0) in
  ncoll_bytes c' = [Byte.x01; Byte.x02] /\ ghost_destinations c' = [].
Proof.
  destruct (set_narrowphase_patches_installs
              {| ncoll_patch_meta := empty_patch;
                 ncoll_bytes := [Byte.xff; Byte.xff; Byte.xff];
                 ncoll_origin_node := 7; ghost_destinations := [4] |}
              (two_bytes (blank_impl tt 0) 0 0) no_vrt_proxy [] [])
    as [(_ & Hbytes & _ & _ & Hghost) _]; [simpl; lia|].
  split; [exact Hbytes|exact Hghost].
Defined.

(** C10 at [B.broadphase( A )] in a copy-all build. *)
Lemma broadphase_completes_round_witness :
  exists w', broadphase two_bytes true node0 B A example_world = Done w'.
Proof.
  destruct (broadphase_completes_round two_bytes true node0 B A example_world)
    as (w' & _ & _ & Hrun & _); [discriminate| |].
  - intros _. vm_compute. split; reflexivity.
  - exists w'. exact Hrun.
Defined.

(** ** The further properties at the objects of the run *)

(** X1 at a factor above [2^32]: the object has the factor 2. *)
Lemma construct_registers_indices_witness :
  exists c,
    construct blank_impl tt 0 (2 ^ 32 + 2) empty_runtime = Some c /\
    overdecomposition_factor c.1 = 2 /\
    indices (chainset c.1) = [0; 1].
Proof.
  assert (static_cast_int (2 ^ 32 + 2) = Z.of_nat 2) as Hcast.
  { unfold static_cast_int. rewrite Nat2Z.inj_add, Nat2Z.inj_pow. by vm_compute. }
  assert (static_cast_int 1 = Z.of_nat 1) as Hcast' by (by vm_compute).
  destruct (construct_registers_indices blank_impl tt tt 0 1 (2 ^ 32 + 2) 1 2 1
              empty_runtime Hcast Hcast')
    as (c & c' & Hrun & _ & Hk & _ & _ & Hidx & _).
  exists c. split; [exact Hrun|]. split; [exact Hk|exact Hidx].
Defined.

(** X3 at object A with its plan. *)
Lemma set_entity_data_impl_idempotent_witness :
  exists o',
    set_entity_data_impl node0 0 16 (initialize_split_indices plan_A fresh_A) = Done o' /\
    set_entity_data_impl node0 0 16 o' = Done o'.
Proof.
  apply (set_entity_data_impl_idempotent node0 0 16
           (initialize_split_indices plan_A fresh_A)).
  reflexivity.
Defined.


(** X5 at the boundaries 5 and 3: the second patch begins at 5 and has
    the size [2^64 - 2]. *)
Lemma set_entity_data_impl_unordered_wraps_witness :
  exists o',
    set_entity_data_impl node0 0 16
      (initialize_split_indices plan_unordered (set_overdecomposition 3 (blank_impl tt 0)))
    = Done o' /\
    local_patches o' !! 1
    = Some (broadphase_patch_type 1
              {| span_begin := 5; span_size := 2 ^ 64 + 3 - 5 |}).
Proof.
  apply (set_entity_data_impl_unordered_wraps node0 0 16 plan_unordered
           (set_overdecomposition 3 (blank_impl tt 0)) 1 5 3);
    [reflexivity|reflexivity|reflexivity|lia|lia].
Defined.

(** X6 at object A with its plan. *)
Lemma set_entity_data_impl_makes_ready_witness :
  exists o',
    set_entity_data_impl node0 0 16 (initialize_split_indices plan_A fresh_A) = Done o' /\
    patches_ready o' = true.
Proof.
  destruct (set_entity_data_impl_makes_ready node0 0 16
              (initialize_split_indices plan_A fresh_A))
    as (o' & Hrun & Hready & _); [reflexivity|reflexivity|].
  exists o'. split; [exact Hrun|exact Hready].
Defined.

(** X7 at a second [init_broadphase] of object A. *)
Lemma init_broadphase_publishes_geometry_witness :
  exists o' r',
    init_broadphase node0 (objects example_world A, rt example_world) = Done (o', r') /\
    broadphase_patch_collection_proxy o' <> no_vrt_proxy.
Proof.
  destruct (init_broadphase_publishes_geometry node0 (objects example_world A)
              (rt example_world))
    as (o' & r' & Hrun & Hvalid & _); [by vm_compute|].
  exists o', r'. split; [exact Hrun|exact Hvalid].
Defined.

(** X8 at object A before it has entity data. *)
Lemma init_broadphase_without_patches_witness :
  exists o' r',
    init_broadphase node0 (fresh_A, empty_runtime) = Stopped out_of_range (o', r') /\
    chainset o' = chainset fresh_A.
Proof.
  destruct (init_broadphase_without_patches node0 fresh_A empty_runtime)
    as (o' & r' & Hrun & Hcs & _); [by vm_compute|].
  exists o', r'. split; [exact Hrun|exact Hcs].
Defined.

(** X9 at object A with its plan. *)
Lemma published_geometry_at_patch_id_witness :
  exists o1 o2 r2,
    set_entity_data_impl node0 0 16 (initialize_split_indices plan_A fresh_A) = Done o1 /\
    init_broadphase node0 (o1, empty_runtime) = Done (o2, r2).
Proof.
  destruct (published_geometry_at_patch_id node0 0 16
              (initialize_split_indices plan_A fresh_A) empty_runtime)
    as (o1 & o2 & r2 & st & Hrun1 & Hrun2 & _);
    [reflexivity|reflexivity|simpl; lia|].
  exists o1, o2, r2. split; [exact Hrun1|exact Hrun2].
Defined.

(** X10 at object A and a store with two stale records. *)
Lemma published_geometry_is_stored_witness :
  exists o' r' st,
    init_broadphase node0 (objects example_world A, rt example_world) = Done (o', r') /\
    release_geometry (broadphase_patch_collection_proxy o')
      [stale_geometry; stale_geometry] (map snd (sends st)) !! 1
    = Some {| bcoll_patch := broadphase_patch_type 1 {| span_begin := 3; span_size := 5 |};
              bcoll_origin_node := 0;
              bcoll_local_idx := 1 |}.
Proof.
  destruct (published_geometry_is_stored node0 (objects example_world A)
              (rt example_world) [stale_geometry; stale_geometry])
    as (o' & r' & st & Hrun & _ & Hstored);
    [by vm_compute|change (NoDup (seq 0 2)); apply NoDup_seq|].
  exists o', r', st. split; [exact Hrun|].
  apply (Hstored 1); [apply list_elem_of_In; vm_compute; auto|simpl; lia].
Defined.

(** X11 at object A and a store with two stale records. *)
Lemma published_payloads_are_stored_witness :
  exists o' st msg,
    set_all_narrow_patches two_bytes node0 (objects example_world A) = Done o' /\
    narrowphase_patch_messages o' !! 1 = Some (Some msg) /\
    release_all (proxy_id 1) [stale_payload; stale_payload] (map snd (sends st)) !! 1
    = Some (details.set_narrowphase_patches stale_payload msg).
Proof.
  destruct (published_payloads_are_stored two_bytes node0 (objects example_world A)
              [stale_payload; stale_payload])
    as (o' & st & Hrun & _ & Hstored);
    [by vm_compute|change (NoDup (seq 0 2)); apply NoDup_seq|].
  destruct (Hstored 1 stale_payload) as (msg & Hslot & _ & _ & Hrel);
    [apply list_elem_of_In; vm_compute; auto|reflexivity|].
  exists o', st, msg. split; [exact Hrun|]. split; [exact Hslot|exact Hrel].
Defined.

(** X13 at [A.narrowphase( B )] on node 0: the pass over B runs over the
    two indices of A and serves the one patch of B. *)
Lemma ghost_pass_other_serves_iff_witness :
  exists st,
    ghost_pass_other node0 (objects example_world A) (objects example_world B) = Some st /\
    ghost_pass_serves node0 (objects example_world B) st = true.
Proof.
  assert (indices_registered (objects example_world A)) as Hidx by (by vm_compute).
  eexists. split; [reflexivity|].
  apply (ghost_pass_other_serves_iff node0 (objects example_world A)
           (objects example_world B) _ Hidx eq_refl).
  right. right. split; [reflexivity|]. vm_compute. lia.
Defined.

(** X16 at a third object while A and B go through a round. *)
Lemma calls_leave_unnamed_objects_witness :
  objects (state_of (run two_bytes true node0
                       [(A, m_broadphase B); (A, m_end_phase); (B, m_init_broadphase)]
                       example_world)) 2
  = objects example_world 2.
Proof.
  apply (calls_leave_unnamed_objects two_bytes true node0
           [(A, m_broadphase B); (A, m_end_phase); (B, m_init_broadphase)]
           2 example_world).
  reflexivity.
Defined.

End collision_object.
